(** * dagster_dg/component.py: component keys and the remote component registry

    A shallow embedding of [dagster_dg/component.py].  Python [str] values are
    modelled as Rocq [string]s holding the UTF-8 bytes of the text: suffix
    tests, concatenation, the ASCII character class of the type-name regular
    expression and code-point order all read the same on the bytes. *)

From Stdlib Require Import String Ascii List Bool Arith ZArith Lia DecimalString.
From Stdlib Require Import Sorting.Sorted Sorting.Permutation.
Import ListNotations.

Local Open Scope string_scope.
Local Open Scope list_scope.

Set Implicit Arguments.
Set Warnings "-register-all".

(** ** Component keys *)

(** The two frozen dataclasses.  A dataclass compares equal only to an
    instance of its own class with equal fields, which is the equality of
    this inductive type. *)
Inductive ComponentKey : Type :=
| GlobalComponentKey (name namespace : string)
| LocalComponentKey (name namespace dirpath : string).

(** ** Exceptions and results *)

(** What a [KeyError] carries: [set.remove(path)] raises it with the path, a
    failed subscript of the registry's mapping with the key. *)
Inductive KeyErrorArg : Type :=
| MissingPath (path : string)
| MissingKey (key : ComponentKey).

Inductive Exn : Type :=
| ValueError (msg : string)
| TypeError
| AttributeError
| JSONDecodeError
| KeyError (arg : KeyErrorArg)
| ExternalError (msg : string).

Inductive result (A : Type) : Type :=
| Ok (a : A)
| Raise (e : Exn).

Arguments Ok {A} a.
Arguments Raise {A} e.

Definition rbind {A B : Type} (r : result A) (k : A -> result B) : result B :=
  match r with
  | Ok a => k a
  | Raise e => Raise e
  end.

Definition is_ok {A : Type} (r : result A) : bool :=
  match r with
  | Ok _ => true
  | Raise _ => false
  end.

(** ** The type-name pattern *)

Definition newline : string := String "010"%char EmptyString.

(** The class [[a-zA-Z0-9_]] of [COMPONENT_TYPE_REGEX]. *)
Definition is_word_char (c : ascii) : bool :=
  let n := nat_of_ascii c in
  ((48 <=? n) && (n <=? 57)
   || (65 <=? n) && (n <=? 90)
   || (97 <=? n) && (n <=? 122)
   || (n =? 95))%nat.

(** The longest prefix of word characters, and what follows it: a greedy
    [[a-zA-Z0-9_]*]. *)
Fixpoint span_word (s : string) : string * string :=
  match s with
  | EmptyString => (EmptyString, EmptyString)
  | String c r =>
      if is_word_char c
      then let (w, rest) := span_word r in (String c w, rest)
      else (EmptyString, s)
  end.

(** [COMPONENT_TYPE_REGEX.match(typename)], with the two groups of a match.
    The pattern is [^([a-zA-Z0-9_]+)@([a-zA-Z0-9_]+)$]; without [re.MULTILINE]
    Python's [$] matches at the end of the text and also just before a newline
    that ends it.  Backtracking cannot change the outcome: a shorter first
    group is followed by a word character, never by [@]. *)
Definition COMPONENT_TYPE_REGEX_match (typename : string)
  : option (string * string) :=
  let (name, r1) := span_word typename in
  match name, r1 with
  | String _ _, String "@"%char r2 =>
      let (namespace, r3) := span_word r2 in
      match namespace with
      | EmptyString => None
      | String _ _ =>
          if (r3 =? "") || (r3 =? newline) then Some (name, namespace) else None
      end
  | _, _ => None
  end.

Definition _name_and_namespace_from_type (typename : string)
  : result (string * string) :=
  match COMPONENT_TYPE_REGEX_match typename with
  | None => Raise (ValueError ("Invalid component type name: " ++ typename))
  | Some (name, namespace) => Ok (name, namespace)
  end.

(** [s.endswith(suffix)]. *)
Fixpoint endswith (s suffix : string) : bool :=
  if s =? suffix then true
  else match s with
       | EmptyString => false
       | String _ r => endswith r suffix
       end.

(** ** Operations on keys *)

Definition ComponentKey_eq_dec (a b : ComponentKey) : {a = b} + {a <> b}.
Proof. decide equality; apply string_dec. Defined.

Definition key_name (k : ComponentKey) : string :=
  match k with
  | GlobalComponentKey n _ => n
  | LocalComponentKey n _ _ => n
  end.

Definition key_namespace (k : ComponentKey) : string :=
  match k with
  | GlobalComponentKey _ ns => ns
  | LocalComponentKey _ ns _ => ns
  end.

(** [isinstance(key, GlobalComponentKey)]. *)
Definition is_global (k : ComponentKey) : bool :=
  match k with
  | GlobalComponentKey _ _ => true
  | LocalComponentKey _ _ _ => false
  end.

Definition to_typename (k : ComponentKey) : string :=
  match k with
  | GlobalComponentKey name namespace => name ++ "@" ++ namespace
  | LocalComponentKey name namespace dirpath =>
      name ++ "@" ++ namespace ++ " (" ++ dirpath ++ ")"
  end.

(** [GlobalComponentKey.from_typename]. *)
Definition Global_from_typename (typename : string) : result ComponentKey :=
  rbind (_name_and_namespace_from_type typename)
        (fun '(name, namespace) => Ok (GlobalComponentKey name namespace)).

(** [LocalComponentKey.from_type]. *)
Definition Local_from_type (typename dirpath : string) : result ComponentKey :=
  rbind (_name_and_namespace_from_type typename)
        (fun '(name, namespace) => Ok (LocalComponentKey name namespace dirpath)).

(** [ComponentKey.from_typename]. *)
Definition from_typename (typename dirpath : string) : result ComponentKey :=
  if endswith typename ".py"
  then Local_from_type typename dirpath
  else Global_from_typename typename.

(** ** Dictionaries

    A Python [dict] keeps its keys in insertion order and holds each key once;
    it is modelled as an association list in that order.  Assigning to a key
    that is present replaces its value in place, assigning to a new key
    appends it. *)

Section Dict.

Variables K V : Type.
Variable K_eq_dec : forall a b : K, {a = b} + {a <> b}.

Definition dict : Type := list (K * V).

(** [d.get(k)]: the value under [k], when there is one. *)
Fixpoint dict_get (k : K) (d : dict) : option V :=
  match d with
  | [] => None
  | (k', v) :: rest => if K_eq_dec k k' then Some v else dict_get k rest
  end.

(** [d[k] = v]. *)
Fixpoint dict_set (k : K) (v : V) (d : dict) : dict :=
  match d with
  | [] => [(k, v)]
  | (k', v') :: rest =>
      if K_eq_dec k k' then (k', v) :: rest else (k', v') :: dict_set k v rest
  end.

(** [d.update(other)]. *)
Definition dict_update (d other : dict) : dict :=
  fold_left (fun acc kv => dict_set (fst kv) (snd kv) acc) other d.

(** [list(d.keys())]. *)
Definition dict_keys (d : dict) : list K := map fst d.

(** [k in d]. *)
Definition dict_contains (k : K) (d : dict) : bool :=
  match dict_get k d with
  | Some _ => true
  | None => false
  end.

End Dict.

(** ** JSON values

    What [json.loads] returns: [None], [bool], [int], [float], [str], [list]
    and [dict] with [str] keys.  A float is carried as its IEEE-754 binary64
    bit pattern; nothing here computes with it. *)
Inductive json : Type :=
| JNull
| JBool (b : bool)
| JInt (n : Z)
| JFloat (bits : Z)
| JStr (s : string)
| JArr (elems : list json)
| JObj (items : list (string * json)).

(** ** Descriptors *)

(** The dataclass [RemoteComponentType].  Python does not check the field
    annotations when the object is built, so each field holds whatever JSON
    value the metadata object supplied; [JNull] is Python's [None]. *)
Record RemoteComponentType : Type := {
  name : json;
  package : json;
  summary : json;
  description : json;
  scaffold_params_schema : json;
  component_params_schema : json
}.

Definition field_names : list string :=
  ["name"; "package"; "summary"; "description";
   "scaffold_params_schema"; "component_params_schema"].

Definition is_field (k : string) : bool := existsb (String.eqb k) field_names.

(** The call of [RemoteComponentType] with the keyword arguments
    [**metadata].  The dataclass declares no default, so its generated
    [__init__] has six required parameters: a keyword that is not a field, a
    missing field, or an argument that is not a mapping each raise
    [TypeError]. *)
Definition RemoteComponentType_of_kwargs (metadata : json)
  : result RemoteComponentType :=
  match metadata with
  | JObj kwargs =>
      if forallb (fun kv => is_field (fst kv)) kwargs then
        match dict_get string_dec "name" kwargs,
              dict_get string_dec "package" kwargs,
              dict_get string_dec "summary" kwargs,
              dict_get string_dec "description" kwargs,
              dict_get string_dec "scaffold_params_schema" kwargs,
              dict_get string_dec "component_params_schema" kwargs with
        | Some n, Some p, Some s, Some d, Some sc, Some c =>
            Ok {| name := n; package := p; summary := s; description := d;
                  scaffold_params_schema := sc; component_params_schema := c |}
        | _, _, _, _, _, _ => Raise TypeError
        end
      else Raise TypeError
  | _ => Raise TypeError
  end.

(** ** Translators from raw data *)

Definition type_mapping : Type := dict ComponentKey RemoteComponentType.

(** The body of both translators: for each [typename, metadata] of
    [raw_data.items()], the descriptor built from [**metadata] is stored under
    the key made from [typename].  Python evaluates the right-hand side of
    the assignment before the subscript, so a malformed descriptor is
    reported before a malformed type name. *)
Fixpoint translate_items (make_key : string -> result ComponentKey)
    (items : list (string * json)) (data : type_mapping) : result type_mapping :=
  match items with
  | [] => Ok data
  | (typename, metadata) :: rest =>
      rbind (RemoteComponentType_of_kwargs metadata) (fun v =>
      rbind (make_key typename) (fun k =>
      translate_items make_key rest (dict_set ComponentKey_eq_dec k v data)))
  end.

(** [raw_data.items()]: only a [dict] has the method. *)
Definition json_items (raw_data : json) : result (list (string * json)) :=
  match raw_data with
  | JObj items => Ok items
  | _ => Raise AttributeError
  end.

Definition _get_remote_type_mapping_from_raw_data (raw_data : json)
  : result type_mapping :=
  rbind (json_items raw_data) (fun items =>
  translate_items Global_from_typename items []).

(** A [pathlib.Path] is modelled by its [str()] form: two paths are equal
    exactly when their normalised texts are. *)
Definition Path : Type := string.

Definition str_of_path (p : Path) : string := p.

Definition _get_local_type_mapping_from_raw_data (raw_data : json) (dirpath : Path)
  : result type_mapping :=
  rbind (json_items raw_data) (fun items =>
  translate_items (fun typename => Local_from_type typename (str_of_path dirpath))
                  items []).

(** ** The registry *)

Record RemoteComponentRegistry : Type := {
  _components : type_mapping
}.

(** [RemoteComponentRegistry(components)]: the constructor keeps a copy. *)
Definition new_registry (components : type_mapping) : RemoteComponentRegistry :=
  {| _components := components |}.

Definition empty : RemoteComponentRegistry := new_registry [].

Definition has_global (self : RemoteComponentRegistry) (key : ComponentKey) : bool :=
  dict_contains ComponentKey_eq_dec key (_components self).

(** [self._components[key]]. *)
Definition subscript (self : RemoteComponentRegistry) (key : ComponentKey)
  : result RemoteComponentType :=
  match dict_get ComponentKey_eq_dec key (_components self) with
  | Some v => Ok v
  | None => Raise (KeyError (MissingKey key))
  end.

Definition get (self : RemoteComponentRegistry) (key : ComponentKey)
  : result RemoteComponentType :=
  subscript self key.

(** [repr] of a text, as CPython writes it: between single quotes, or
    between double quotes when the text holds a single quote and no double
    one; the enclosing quote and the backslash are escaped with a backslash,
    tab, newline and carriage return are written [\t], [\n] and [\r], and
    every other control character of ASCII as [\xNN] in lower-case
    hexadecimal.  Characters outside ASCII are taken to be printable ones,
    which [repr] keeps as they are. *)
Fixpoint contains_char (c : ascii) (s : string) : bool :=
  match s with
  | EmptyString => false
  | String a r => Ascii.eqb a c || contains_char c r
  end.

Definition hex_digit (n : nat) : ascii :=
  match String.get n "0123456789abcdef" with
  | Some c => c
  | None => "0"%char
  end.

Definition repr_char (quote c : ascii) : string :=
  let n := nat_of_ascii c in
  if Ascii.eqb c quote || Ascii.eqb c "092"%char
  then String "092"%char (String c EmptyString)
  else if Nat.eqb n 9 then String "092"%char "t"
  else if Nat.eqb n 10 then String "092"%char "n"
  else if Nat.eqb n 13 then String "092"%char "r"
  else if Nat.ltb n 32 || Nat.eqb n 127
       then String "092"%char
              (String "x"%char
                 (String (hex_digit (n / 16))
                    (String (hex_digit (n mod 16)) EmptyString)))
       else String c EmptyString.

Fixpoint repr_body (quote : ascii) (s : string) : string :=
  match s with
  | EmptyString => String quote EmptyString
  | String c r => repr_char quote c ++ repr_body quote r
  end.

Definition repr_str (s : string) : string :=
  let quote := if contains_char "039"%char s && negb (contains_char "034"%char s)
               then "034"%char
               else "039"%char in
  String quote (repr_body quote s).

(** The [repr] a dataclass generates for a key. *)

Definition key_repr (k : ComponentKey) : string :=
  match k with
  | GlobalComponentKey n ns =>
      "GlobalComponentKey(name=" ++ repr_str n ++ ", namespace=" ++ repr_str ns ++ ")"
  | LocalComponentKey n ns d =>
      "LocalComponentKey(name=" ++ repr_str n ++ ", namespace=" ++ repr_str ns
      ++ ", dirpath=" ++ repr_str d ++ ")"
  end.

Definition get_global (self : RemoteComponentRegistry) (key : ComponentKey)
  : result RemoteComponentType :=
  if negb (is_global key)
  then Raise (ValueError ("Expected GlobalRemoteComponentKey, got " ++ key_repr key))
  else subscript self key.

(** [sorted(xs, key=f)] on text keys: a stable sort by [<=] on strings.
    Insertion from the right puts an element before the first one that is not
    smaller, so equal elements keep their order. *)
Fixpoint insert_by {A : Type} (f : A -> string) (x : A) (l : list A) : list A :=
  match l with
  | [] => [x]
  | y :: rest =>
      if String.leb (f x) (f y) then x :: y :: rest else y :: insert_by f x rest
  end.

Definition sorted_by {A : Type} (f : A -> string) (l : list A) : list A :=
  fold_right (insert_by f) [] l.

(** The generator [global_keys], as the list of what it yields. *)
Definition global_keys (self : RemoteComponentRegistry) : list ComponentKey :=
  filter is_global (sorted_by to_typename (dict_keys (_components self))).

(** The generator [global_items], run to its end: the pairs it yields, or the
    exception that [get_global] raised on the way. *)
Fixpoint pair_with_global (self : RemoteComponentRegistry) (keys : list ComponentKey)
  : result (list (ComponentKey * RemoteComponentType)) :=
  match keys with
  | [] => Ok []
  | key :: rest =>
      rbind (get_global self key) (fun v =>
      rbind (pair_with_global self rest) (fun tl => Ok ((key, v) :: tl)))
  end.

Definition global_items (self : RemoteComponentRegistry)
  : result (list (ComponentKey * RemoteComponentType)) :=
  pair_with_global self (global_keys self).

(** ** The environment context and its effects

    [DgContext], its cache and the external discovery process are
    collaborators of this module; so are [json.loads], [json.dumps] and the
    order in which Python iterates over a [set].  They are parameters of the
    development: every statement below holds for each choice of them. *)

Section Construction.

(** The type of cache keys, with Python's truth value of a key. *)
Variable Key : Type.
Variable Key_eq_dec : forall a b : Key, {a = b} + {a <> b}.
Variable key_truthy : Key -> bool.

(** [json.loads] ([None] for a [JSONDecodeError]) and [json.dumps]. *)
Variable json_loads : string -> option json.
Variable json_dumps : json -> string.

(** The order in which a [set] holding the given paths is iterated. *)
Variable set_order : list Path -> list Path.

Record DgContext : Type := {
  has_cache : bool;
  use_dg_managed_environment : bool;
  get_cache_key : string -> Key;
  get_cache_key_for_local_components : Path -> Key;
  external_components_command : list string -> result string
}.

(** The cache store: [cache.get] and [cache.set] on string entries. *)
Definition Cache : Type := dict Key string.

(** What a construction does to the outside, in order. *)
Inductive Event : Type :=
| EnsureUvLock
| CacheGet (k : Key)
| CacheSet (k : Key) (v : string)
| ExternalCommand (args : list string).

(** A computation reads and writes the cache, emits events, and returns a
    value or raises. *)
Record Run (A : Type) : Type := {
  events : list Event;
  cache_after : Cache;
  outcome : result A
}.

Definition M (A : Type) : Type := Cache -> Run A.

Definition ret {A : Type} (a : A) : M A :=
  fun c => {| events := []; cache_after := c; outcome := Ok a |}.

Definition lift {A : Type} (r : result A) : M A :=
  fun c => {| events := []; cache_after := c; outcome := r |}.

Definition bind {A B : Type} (m : M A) (k : A -> M B) : M B :=
  fun c =>
    let r := m c in
    match outcome r with
    | Ok a =>
        let r' := k a (cache_after r) in
        {| events := events r ++ events r';
           cache_after := cache_after r';
           outcome := outcome r' |}
    | Raise e =>
        {| events := events r; cache_after := cache_after r; outcome := Raise e |}
    end.

Notation "x <- m ;; k" := (bind m (fun x => k))
  (at level 61, m at next level, right associativity).
Notation "' pat <- m ;; k" := (bind m (fun x => match x with pat => k end))
  (at level 61, pat pattern, m at next level, right associativity).

Definition cache_get (k : Key) : M (option string) :=
  fun c => {| events := [CacheGet k]; cache_after := c;
              outcome := Ok (dict_get Key_eq_dec k c) |}.

Definition cache_set (k : Key) (v : string) : M unit :=
  fun c => {| events := [CacheSet k v]; cache_after := dict_set Key_eq_dec k v c;
              outcome := Ok tt |}.

Definition external (ctx : DgContext) (args : list string) : M string :=
  fun c => {| events := [ExternalCommand args]; cache_after := c;
              outcome := external_components_command ctx args |}.

Definition ensure_uv_lock : M unit :=
  fun c => {| events := [EnsureUvLock]; cache_after := c; outcome := Ok tt |}.

Definition loads (raw : string) : M json :=
  lift (match json_loads raw with
        | Some j => Ok j
        | None => Raise JSONDecodeError
        end).

(** Modelled from the spec: [dagster_dg.utils.is_valid_json] is not among the
    sources; the spec has it accept exactly the syntactically valid JSON
    texts, those [json.loads] parses. *)
Definition is_valid_json (text : string) : bool :=
  match json_loads text with
  | Some _ => true
  | None => false
  end.

(** Python's truth value of [cache.get]'s answer: [None] and the empty string
    are false. *)
Definition str_truthy (raw : option string) : bool :=
  match raw with
  | Some (String _ _) => true
  | _ => false
  end.

(** [all_components_schema_from_dg_context]. *)
Definition all_components_schema_from_dg_context (ctx : DgContext) : M json :=
  schema_raw <- (if has_cache ctx
                 then cache_get (get_cache_key ctx "all_components_schema")
                 else ret None) ;;
  schema_raw <- (match schema_raw with
                 | Some (String _ _ as raw) => ret raw
                 | _ => external ctx ["list"; "all-components-schema"]
                 end) ;;
  loads schema_raw.

(** *** Local component types *)

(** [paths_to_fetch.remove(path)]. *)
Fixpoint set_remove (path : Path) (s : list Path) : result (list Path) :=
  match s with
  | [] => Raise (KeyError (MissingPath path))
  | q :: rest =>
      if string_dec path q then Ok rest
      else rbind (set_remove path rest) (fun rest' => Ok (q :: rest'))
  end.

(** Lines 111-116: the loop over [paths] that reads the cache.  The state is
    [data] and [paths_to_fetch]. *)
Fixpoint read_cached (ctx : DgContext) (paths : list Path)
    (st : type_mapping * list Path) : M (type_mapping * list Path) :=
  match paths with
  | [] => ret st
  | path :: rest =>
      let cache_key := get_cache_key_for_local_components ctx path in
      raw_data <- cache_get cache_key ;;
      match raw_data with
      | Some (String _ _ as raw) =>
          j <- loads raw ;;
          m <- lift (_get_local_type_mapping_from_raw_data j path) ;;
          fetch <- lift (set_remove path (snd st)) ;;
          read_cached ctx rest (dict_update ComponentKey_eq_dec (fst st) m, fetch)
      | _ => read_cached ctx rest st
      end
  end.

(** Lines 127-128: every path to fetch is translated from the same
    [local_component_data], the whole response. *)
Fixpoint translate_fetched (local_component_data : json) (paths : list Path)
    (data : type_mapping) : result type_mapping :=
  match paths with
  | [] => Ok data
  | path :: rest =>
      rbind (_get_local_type_mapping_from_raw_data local_component_data path)
            (fun m => translate_fetched local_component_data rest
                        (dict_update ComponentKey_eq_dec data m))
  end.

(** [local_component_data.get(key, {})]: only a [dict] has the method. *)
Definition json_get_or_empty (local_component_data : json) (key : string)
  : result json :=
  match local_component_data with
  | JObj items =>
      match dict_get string_dec key items with
      | Some v => Ok v
      | None => Ok (JObj [])
      end
  | _ => Raise AttributeError
  end.

(** Lines 131-135: the loop that writes each fetched path's share back. *)
Fixpoint write_back (ctx : DgContext) (local_component_data : json)
    (paths : list Path) : M unit :=
  match paths with
  | [] => ret tt
  | path :: rest =>
      let cache_key := get_cache_key_for_local_components ctx path in
      share <- lift (json_get_or_empty local_component_data (str_of_path path)) ;;
      let data_for_path_json := json_dumps share in
      _ <- (if key_truthy cache_key && is_valid_json data_for_path_json
            then cache_set cache_key data_for_path_json
            else ret tt) ;;
      write_back ctx local_component_data rest
  end.

Definition _retrieve_local_component_types (ctx : DgContext) (paths : list Path)
  : M type_mapping :=
  let paths_to_fetch := nodup string_dec paths in
  st <- (if has_cache ctx
         then read_cached ctx paths ([], paths_to_fetch)
         else ret ([], paths_to_fetch)) ;;
  match snd st with
  | [] => ret (fst st)
  | _ :: _ =>
      let fetch := set_order (snd st) in
      raw_local_component_data <-
        external ctx ("list" :: "local-component-types" :: map str_of_path fetch) ;;
      local_component_data <- loads raw_local_component_data ;;
      data <- lift (translate_fetched local_component_data fetch (fst st)) ;;
      _ <- (if has_cache ctx
            then write_back ctx local_component_data fetch
            else ret tt) ;;
      ret data
  end.

(** *** Registry construction *)

(** Lines 152-164 of [from_dg_context]: the global listing, from the cache or
    from the external process, translated. *)
Definition global_component_data (ctx : DgContext) : M type_mapping :=
  lookup <- (if has_cache ctx
             then let cache_key := get_cache_key ctx "component_registry_data" in
                  raw <- cache_get cache_key ;; ret (Some cache_key, raw)
             else ret (None, None)) ;;
  raw_registry_data <-
    (match snd lookup with
     | Some (String _ _ as raw) => ret raw
     | _ =>
         raw <- external ctx ["list"; "component-types"] ;;
         _ <- (match fst lookup with
               | Some cache_key =>
                   if has_cache ctx && key_truthy cache_key && is_valid_json raw
                   then cache_set cache_key raw
                   else ret tt
               | None => ret tt
               end) ;;
         ret raw
     end) ;;
  j <- loads raw_registry_data ;;
  m <- lift (_get_remote_type_mapping_from_raw_data j) ;;
  ret (dict_update ComponentKey_eq_dec [] m).

(** [RemoteComponentRegistry.from_dg_context].  [local_component_type_dirs]
    is optional; [None] and an empty sequence are both false. *)
Definition from_dg_context (ctx : DgContext)
    (local_component_type_dirs : option (list Path)) : M RemoteComponentRegistry :=
  _ <- (if use_dg_managed_environment ctx then ensure_uv_lock else ret tt) ;;
  component_data <- global_component_data ctx ;;
  component_data <-
    (match local_component_type_dirs with
     | Some ((_ :: _) as dirs) =>
         m <- _retrieve_local_component_types ctx dirs ;;
         ret (dict_update ComponentKey_eq_dec component_data m)
     | _ => ret component_data
     end) ;;
  ret (new_registry component_data).

End Construction.

(** ** A reader and a writer for plain JSON texts

    The examples below need [json.loads] and [json.dumps] at concrete texts.
    [json_loads_lite] and [json_dumps_lite] cover the fragment those texts
    use: [null], [true], [false], integers, strings of printable characters
    without quote or backslash, arrays and objects.  On that fragment they
    agree with Python's functions; the reader rejects every text that is not
    JSON, and gives up on floats and escapes, which the writer does not
    render either. *)

Definition dquote : ascii := "034"%char.

Definition is_space (c : ascii) : bool :=
  let n := nat_of_ascii c in
  ((n =? 32) || (n =? 9) || (n =? 10) || (n =? 13))%nat.

Fixpoint skip_ws (s : string) : string :=
  match s with
  | String c r => if is_space c then skip_ws r else s
  | EmptyString => s
  end.

Definition is_digit (c : ascii) : bool :=
  let n := nat_of_ascii c in ((48 <=? n) && (n <=? 57))%nat.

(** The characters of a string literal after its opening quote, up to the
    closing one. *)
Fixpoint read_string_body (s : string) : option (string * string) :=
  match s with
  | EmptyString => None
  | String c r =>
      if Ascii.eqb c dquote then Some (EmptyString, r)
      else if Ascii.eqb c "\"%char || (nat_of_ascii c <? 32)%nat then None
      else match read_string_body r with
           | Some (body, rest) => Some (String c body, rest)
           | None => None
           end
  end.

Fixpoint read_digits (s : string) (acc : Z) : Z * string :=
  match s with
  | String c r =>
      if is_digit c
      then read_digits r (10 * acc + Z.of_nat (nat_of_ascii c - 48))
      else (acc, s)
  | EmptyString => (acc, s)
  end.

Definition starts_fraction (s : string) : bool :=
  match s with
  | String c _ => Ascii.eqb c "."%char || Ascii.eqb c "e"%char || Ascii.eqb c "E"%char
  | EmptyString => false
  end.

(** [0] or a digit sequence without a leading zero, not continued as a float. *)
Definition read_nat_literal (s : string) : option (Z * string) :=
  match s with
  | String c r =>
      if Ascii.eqb c "0"%char then
        match r with
        | String d _ => if is_digit d || starts_fraction r then None else Some (0%Z, r)
        | EmptyString => Some (0%Z, r)
        end
      else if is_digit c then
        let (n, rest) := read_digits s 0%Z in
        if starts_fraction rest then None else Some (n, rest)
      else None
  | EmptyString => None
  end.

Definition strip_prefix (p s : string) : option string :=
  if String.prefix p s
  then Some (substring (String.length p) (String.length s - String.length p) s)
  else None.

(** What the reader is in the middle of: a value, the elements of an array
    after its first, or the members of an object. *)
Inductive ReadMode : Type :=
| AValue
| Elems (acc : list json)
| Members (acc : list (string * json)).

Fixpoint read_json (fuel : nat) (mode : ReadMode) (s : string)
  : option (json * string) :=
  match fuel with
  | O => None
  | S fuel =>
      match mode with
      | AValue =>
          match skip_ws s with
          | String "n"%char _ as t =>
              option_map (fun r => (JNull, r)) (strip_prefix "null" t)
          | String "t"%char _ as t =>
              option_map (fun r => (JBool true, r)) (strip_prefix "true" t)
          | String "f"%char _ as t =>
              option_map (fun r => (JBool false, r)) (strip_prefix "false" t)
          | String "-"%char r =>
              option_map (fun nr => (JInt (- fst nr), snd nr)) (read_nat_literal r)
          | String "["%char r =>
              match skip_ws r with
              | String "]"%char r' => Some (JArr [], r')
              | t => read_json fuel (Elems []) t
              end
          | String "{"%char r =>
              match skip_ws r with
              | String "}"%char r' => Some (JObj [], r')
              | t => read_json fuel (Members []) t
              end
          | String c r as t =>
              if Ascii.eqb c dquote
              then option_map (fun br => (JStr (fst br), snd br)) (read_string_body r)
              else option_map (fun nr => (JInt (fst nr), snd nr)) (read_nat_literal t)
          | EmptyString => None
          end
      | Elems acc =>
          match read_json fuel AValue s with
          | Some (v, r) =>
              match skip_ws r with
              | String ","%char r' => read_json fuel (Elems (acc ++ [v])) r'
              | String "]"%char r' => Some (JArr (acc ++ [v]), r')
              | _ => None
              end
          | None => None
          end
      | Members acc =>
          match skip_ws s with
          | String c r =>
              if Ascii.eqb c dquote then
                match read_string_body r with
                | Some (k, r1) =>
                    match skip_ws r1 with
                    | String ":"%char r2 =>
                        match read_json fuel AValue r2 with
                        | Some (v, r3) =>
                            let acc' := dict_set string_dec k v acc in
                            match skip_ws r3 with
                            | String ","%char r4 => read_json fuel (Members acc') r4
                            | String "}"%char r4 => Some (JObj acc', r4)
                            | _ => None
                            end
                        | None => None
                        end
                    | _ => None
                    end
                | None => None
                end
              else None
          | EmptyString => None
          end
      end
  end.

Definition json_loads_lite (text : string) : option json :=
  match read_json (2 * String.length text + 2) AValue text with
  | Some (j, rest) =>
      match skip_ws rest with
      | EmptyString => Some j
      | String _ _ => None
      end
  | None => None
  end.

Definition quoted (s : string) : string :=
  String dquote (s ++ String dquote EmptyString)%string.

Definition join_comma (parts : list string) : string := String.concat ", " parts.

(** [json.dumps] with its default separators. *)
Fixpoint json_dumps_lite (j : json) : string :=
  match j with
  | JNull => "null"
  | JBool true => "true"
  | JBool false => "false"
  | JInt n => DecimalString.NilZero.string_of_int (Z.to_int n)
  | JFloat _ => "NaN"
  | JStr s => quoted s
  | JArr elems => ("[" ++ join_comma (map json_dumps_lite elems) ++ "]")%string
  | JObj items =>
      ("{" ++ join_comma
                (map (fun kv =>
                        (quoted (fst kv) ++ ": " ++ json_dumps_lite (snd kv))%string)
                     items)
           ++ "}")%string
  end.

(** ** Vocabulary of the statements *)

Fixpoint string_forall (p : ascii -> bool) (s : string) : bool :=
  match s with
  | EmptyString => true
  | String c r => p c && string_forall p r
  end.

(** A text that [[a-zA-Z0-9_]+] matches in full. *)
Definition is_word (s : string) : bool :=
  match s with
  | EmptyString => false
  | String _ _ => string_forall is_word_char s
  end.

(** The pattern of [COMPONENT_TYPE_REGEX], read as a relation between a text
    and its two groups. *)
Definition matches_component_type (typename name namespace : string) : Prop :=
  is_word name = true /\ is_word namespace = true /\
  (typename = (name ++ "@" ++ namespace)%string \/
   typename = (name ++ "@" ++ namespace ++ newline)%string).

(** ** Example data *)

(** A descriptor with every optional field [None], and the metadata object
    it is built from. *)
Definition example_metadata (n p : string) : json :=
  JObj [("name", JStr n); ("package", JStr p); ("summary", JNull);
        ("description", JNull); ("scaffold_params_schema", JNull);
        ("component_params_schema", JNull)].

Definition example_descriptor (n p : string) : RemoteComponentType :=
  {| name := JStr n; package := JStr p; summary := JNull; description := JNull;
     scaffold_params_schema := JNull; component_params_schema := JNull |}.

(** Ascending order of the sort keys [f], as [sorted(..., key=f)] compares
    them: text order by code point. *)
Definition le_by {A : Type} (f : A -> string) (x y : A) : Prop :=
  String.leb (f x) (f y) = true.

(** A registry holding two global keys and a local one, inserted out of
    order. *)
Definition example_registry : RemoteComponentRegistry :=
  new_registry
    [(GlobalComponentKey "widget" "proj", example_descriptor "widget" "p");
     (LocalComponentKey "gadget" "proj" "proj/defs", example_descriptor "gadget" "q");
     (GlobalComponentKey "asset" "lib", example_descriptor "asset" "l")].

(** ** What a run did, and what the cache held *)

Section Observations.

Variable Key : Type.
Variable Key_eq_dec : forall a b : Key, {a = b} + {a <> b}.
Variable key_truthy : Key -> bool.
Variable json_loads : string -> option json.
Variable json_dumps : json -> string.

(** The argument lists of the external process's invocations, in order. *)
Definition external_calls (evs : list (Event Key)) : list (list string) :=
  flat_map (fun e => match e with
                     | ExternalCommand _ args => [args]
                     | _ => []
                     end) evs.

(** The [cache.set] calls, in order. *)
Definition cache_writes (evs : list (Event Key)) : list (Key * string) :=
  flat_map (fun e => match e with
                     | CacheSet k v => [(k, v)]
                     | _ => []
                     end) evs.

(** Whether the cache answers a directory's key with a non-empty text. *)
Definition local_hit (ctx : DgContext Key) (c : Cache Key) (path : Path) : bool :=
  str_truthy (dict_get Key_eq_dec (get_cache_key_for_local_components ctx path) c).

(** What a directory's cache entry is worth: [None] for a miss, otherwise
    the outcome of parsing and translating the entry. *)
Definition cached_entry (ctx : DgContext Key) (c : Cache Key) (path : Path)
  : option (result type_mapping) :=
  match dict_get Key_eq_dec (get_cache_key_for_local_components ctx path) c with
  | Some (String _ _ as raw) =>
      Some (match json_loads raw with
            | Some j => _get_local_type_mapping_from_raw_data j path
            | None => Raise JSONDecodeError
            end)
  | _ => None
  end.

(** The directories left to fetch once the cache has been read: all of them
    without a cache, those that missed with one. *)
Definition paths_to_fetch (ctx : DgContext Key) (c : Cache Key) (paths : list Path)
  : list Path :=
  if has_cache ctx
  then filter (fun p => negb (local_hit ctx c p)) (nodup string_dec paths)
  else nodup string_dec paths.

(** The text cached for a fetched directory: its share of the response, or
    the empty object when the response does not name it. *)
Definition share_text (items : list (string * json)) (path : Path) : string :=
  json_dumps (match dict_get string_dec (str_of_path path) items with
              | Some v => v
              | None => JObj []
              end).

(** The [cache.set] calls of the write-back loop over [fetch]. *)
Definition expected_writes (ctx : DgContext Key) (items : list (string * json))
    (fetch : list Path) : list (Key * string) :=
  flat_map (fun p =>
              let cache_key := get_cache_key_for_local_components ctx p in
              if key_truthy cache_key && is_valid_json json_loads (share_text items p)
              then [(cache_key, share_text items p)]
              else [])
           fetch.

End Observations.

(** ** Example contexts

    Cache keys are texts here; a key is true when it is not empty.  The set
    of paths to fetch is iterated in the order it is held. *)

Definition key_nonempty (k : string) : bool := negb (k =? "").

Definition example_cache_key (scope : string) : string := "proj:" ++ scope.

Definition example_local_key (path : Path) : string :=
  "proj:local_component_registry:" ++ str_of_path path.

Definition same_order (paths : list Path) : list Path := paths.

Definition args_eqb (a b : list string) : bool :=
  if list_eq_dec string_dec a b then true else false.

(** The cached listing of [proj/a]: one type, [alpha@proj]. *)
Definition listing_a : json :=
  JObj [("alpha@proj", example_metadata "alpha" "proj_lib")].

(** The response to a request for [proj/b], keyed by the path as the spec has
    it: the object holding [proj/b]'s listing, one type [beta@proj]. *)
Definition response_b : json :=
  JObj [("proj/b", JObj [("beta@proj", example_metadata "beta" "proj_lib")])].

(** A context with a cache, whose external process answers the global
    listing with the empty object and a request for [proj/b] with
    [response_b]. *)
Definition partial_cache_context : DgContext string := {|
  has_cache := true;
  use_dg_managed_environment := false;
  get_cache_key := example_cache_key;
  get_cache_key_for_local_components := example_local_key;
  external_components_command := fun args =>
    if args_eqb args ["list"; "component-types"] then Ok "{}"
    else if args_eqb args ["list"; "local-component-types"; "proj/b"]
         then Ok (json_dumps_lite response_b)
         else Raise (ExternalError "unexpected arguments")
|}.

(** The cache holds the global listing and [proj/a]'s, nothing for
    [proj/b]. *)
Definition partial_cache : Cache string :=
  [(example_cache_key "component_registry_data", "{}");
   (example_local_key "proj/a", json_dumps_lite listing_a)].

(** The cache of [partial_cache] with one more entry, for [proj/c], that is
    not JSON. *)
Definition mixed_cache : Cache string :=
  partial_cache ++ [(example_local_key "proj/c", "not json")].

(** A context with a cache whose external process answers every request
    with the given text. *)
Definition answering_context (answer : string) : DgContext string := {|
  has_cache := true;
  use_dg_managed_environment := true;
  get_cache_key := example_cache_key;
  get_cache_key_for_local_components := example_local_key;
  external_components_command := fun _ => Ok answer
|}.

(** A cache whose entries for the global listing and for [proj/a] are not
    JSON. *)
Definition corrupt_cache : Cache string :=
  [(example_cache_key "component_registry_data", "not json");
   (example_local_key "proj/a", "not json")].

Definition example_construct (ctx : DgContext string)
    (dirs : option (list Path)) : M string RemoteComponentRegistry :=
  from_dg_context string_dec key_nonempty json_loads_lite json_dumps_lite
    same_order ctx dirs.

Definition example_retrieve (ctx : DgContext string) (paths : list Path)
  : M string type_mapping :=
  _retrieve_local_component_types string_dec key_nonempty json_loads_lite
    json_dumps_lite same_order ctx paths.

(** ** Vocabulary of the further properties *)

(** The local key for a directory with the name and namespace of a key. *)
Definition localize (dirpath : string) (k : ComponentKey) : ComponentKey :=
  LocalComponentKey (key_name k) (key_namespace k) dirpath.

(** An entry of a mapping with its key made local to a directory. *)
Definition localize_entry (dirpath : string) (kv : ComponentKey * RemoteComponentType)
  : ComponentKey * RemoteComponentType :=
  (localize dirpath (fst kv), snd kv).

(** A key as parsing makes them: name and namespace are words. *)
Definition well_named (k : ComponentKey) : Prop :=
  is_word (key_name k) = true /\ is_word (key_namespace k) = true.

(** An entry of a raw listing that both steps of the translation accept:
    its metadata builds a descriptor and its type name parses. *)
Definition entry_ok (entry : string * json) : Prop :=
  is_ok (RemoteComponentType_of_kwargs (snd entry)) = true /\
  is_ok (Global_from_typename (fst entry)) = true.

(** A raw listing whose second type name is the first one followed by a
    newline. *)
Definition twin_listing : list (string * json) :=
  [("Foo@ns", example_metadata "Foo" "p");
   (("Foo@ns" ++ newline)%string, example_metadata "Foo" "q")].

(** How many times a run called [ensure_uv_lock]. *)
Definition lock_calls {Key : Type} (evs : list (Event Key)) : nat :=
  length (filter (fun e => match e with
                           | EnsureUvLock _ => true
                           | _ => false
                           end) evs).

(** A local key made by parsing, for a directory that satisfies [Q]: its
    name and namespace are words and its dirpath is the text of such a
    directory. *)
Definition local_to (Q : Path -> Prop) (k : ComponentKey) : Prop :=
  exists n ns p, k = LocalComponentKey n ns (str_of_path p) /\ Q p /\
                 is_word n = true /\ is_word ns = true.


(** A context without a cache whose external process answers every request
    with the given text. *)
Definition uncached_context (answer : string) : DgContext string := {|
  has_cache := false;
  use_dg_managed_environment := false;
  get_cache_key := example_cache_key;
  get_cache_key_for_local_components := example_local_key;
  external_components_command := fun _ => Ok answer
|}.

(** The directories of a construction: none when the argument is omitted. *)
Definition dirs_of (local_component_type_dirs : option (list Path)) : list Path :=
  match local_component_type_dirs with
  | Some dirs => dirs
  | None => []
  end.


Definition example_global (ctx : DgContext string) : M string type_mapping :=
  global_component_data string_dec key_nonempty json_loads_lite ctx.

(** What [listing_a] translates to, as a global listing and as the listing
    of a directory. *)
Definition alpha_global : type_mapping :=
  [(GlobalComponentKey "alpha" "proj", example_descriptor "alpha" "proj_lib")].

Definition alpha_local (dirpath : string) : type_mapping :=
  [(LocalComponentKey "alpha" "proj" dirpath, example_descriptor "alpha" "proj_lib")].

(** * Properties *)

(** ** Strings *)

Lemma string_forall_app (p : ascii -> bool) (a b : string) :
  string_forall p (a ++ b) = string_forall p a && string_forall p b.
Proof.
  induction a as [|c a IH]; simpl; [reflexivity|].
  now rewrite IH, andb_assoc.
Qed.

Lemma append_nil_r (s : string) : (s ++ "")%string = s.
Proof. induction s; simpl; congruence. Qed.

Lemma append_assoc (a b c : string) : ((a ++ b) ++ c)%string = (a ++ (b ++ c))%string.
Proof. induction a; simpl; congruence. Qed.

(** [endswith] is the suffix relation. *)
Lemma endswith_unfold (s suffix : string) :
  endswith s suffix =
  if (s =? suffix)%string then true
  else match s with
       | EmptyString => false
       | String _ r => endswith r suffix
       end.
Proof. destruct s; reflexivity. Qed.

Lemma endswith_spec (s suffix : string) :
  endswith s suffix = true <-> exists p, s = (p ++ suffix)%string.
Proof.
  induction s as [|c s IH]; rewrite endswith_unfold;
    match goal with
    | |- context [(?a =? suffix)%string] =>
        destruct (String.eqb_spec a suffix) as [E|E]
    end;
    try (split; [exists ""; now subst | reflexivity]).
  - split; [discriminate|]. intros [p Hp]. destruct p; simpl in Hp; congruence.
  - rewrite IH. split.
    + intros [p Hp]. exists (String c p). simpl. now rewrite Hp.
    + intros [p Hp]. destruct p as [|c' p]; simpl in Hp; [congruence|].
      exists p. congruence.
Qed.

(** A text that ends in a suffix holds every character of the suffix. *)
Lemma endswith_forall (p : ascii -> bool) (s suffix : string) :
  endswith s suffix = true -> string_forall p suffix = false ->
  string_forall p s = false.
Proof.
  intros H Hs. apply endswith_spec in H as [q ->].
  rewrite string_forall_app, Hs. apply andb_false_r.
Qed.

(** ** The type-name pattern *)

Lemma span_word_spec (s w r : string) :
  span_word s = (w, r) ->
  s = (w ++ r)%string /\ string_forall is_word_char w = true /\
  match r with
  | EmptyString => True
  | String c _ => is_word_char c = false
  end.
Proof.
  revert w r. induction s as [|c s IH]; simpl; intros w r H.
  - inversion H; subst. simpl. auto.
  - destruct (is_word_char c) eqn:Ec.
    + destruct (span_word s) as [w' r'] eqn:Es. inversion H; subst.
      destruct (IH _ _ eq_refl) as (-> & Hw & Hr).
      simpl. rewrite Ec, Hw. auto.
    + inversion H; subst. simpl. auto.
Qed.

Lemma span_word_app (w r : string) :
  string_forall is_word_char w = true ->
  match r with
  | EmptyString => True
  | String c _ => is_word_char c = false
  end ->
  span_word (w ++ r) = (w, r).
Proof.
  intros Hw Hr. induction w as [|c w IH]; simpl in *.
  - destruct r as [|c r]; simpl; [reflexivity|]. now rewrite Hr.
  - apply andb_true_iff in Hw as [Hc Hw]. now rewrite Hc, IH.
Qed.

Lemma is_word_forall (s : string) :
  is_word s = true -> string_forall is_word_char s = true.
Proof. destruct s; simpl; [discriminate | auto]. Qed.

Lemma is_word_nonempty (s : string) : is_word s = true -> s <> "".
Proof. destruct s; simpl; [discriminate | discriminate]. Qed.

(** The matcher computes exactly the matches of the pattern. *)
Theorem COMPONENT_TYPE_REGEX_match_spec (typename name namespace : string) :
  COMPONENT_TYPE_REGEX_match typename = Some (name, namespace) <->
  matches_component_type typename name namespace.
Proof.
  unfold COMPONENT_TYPE_REGEX_match, matches_component_type. split.
  - destruct (span_word typename) as [n r1] eqn:E1.
    apply span_word_spec in E1 as (-> & Hn & _).
    destruct n as [|c n]; [discriminate|].
    destruct r1 as [|a r2]; [discriminate|].
    destruct (Ascii.eqb_spec a "@"%char) as [->|Ha].
    2:{ destruct a as [[] [] [] [] [] [] [] []]; try discriminate. now elim Ha. }
    destruct (span_word r2) as [ns r3] eqn:E2.
    apply span_word_spec in E2 as (-> & Hns & _).
    destruct ns as [|d ns]; [discriminate|].
    destruct (String.eqb_spec r3 "") as [->|E3]; simpl orb.
    + intros H; inversion H; subst. repeat split; auto.
      left. now rewrite append_nil_r.
    + destruct (String.eqb_spec r3 newline) as [->|E4]; [|discriminate].
      intros H; inversion H; subst. repeat split; auto.
  - intros (Hn & Hns & Ht).
    assert (E1 : forall tail, span_word (name ++ "@" ++ tail) = (name, String "@" tail)).
    { intros tail. apply span_word_app; [now apply is_word_forall | reflexivity]. }
    assert (E2 : span_word namespace = (namespace, "")).
    { rewrite <- (append_nil_r namespace) at 1.
      apply span_word_app; [now apply is_word_forall | exact I]. }
    assert (E3 : span_word (namespace ++ newline) = (namespace, newline)).
    { apply span_word_app; [now apply is_word_forall | reflexivity]. }
    destruct Ht as [-> | ->]; rewrite E1;
      destruct name as [|c name]; try discriminate;
      [rewrite E2 | rewrite E3];
      destruct namespace as [|d namespace]; try discriminate; reflexivity.
Qed.

Lemma COMPONENT_TYPE_REGEX_match_chars (typename name namespace : string) :
  COMPONENT_TYPE_REGEX_match typename = Some (name, namespace) ->
  string_forall (fun c => is_word_char c || Ascii.eqb c "@" || Ascii.eqb c "010")
                typename = true.
Proof.
  intros H. apply COMPONENT_TYPE_REGEX_match_spec in H as (Hn & Hns & Ht).
  apply is_word_forall in Hn, Hns.
  assert (W : forall s, string_forall is_word_char s = true ->
              string_forall (fun c => is_word_char c || Ascii.eqb c "@" || Ascii.eqb c "010") s = true).
  { induction s as [|c s IH]; simpl; [reflexivity|].
    intros Hs. apply andb_true_iff in Hs as [Hc Hs]. now rewrite Hc, IH. }
  destruct Ht as [-> | ->];
    rewrite !string_forall_app, (W name Hn), (W namespace Hns); reflexivity.
Qed.

(** ** Parsing keys *)

Lemma from_typename_global (typename dirpath name namespace : string) :
  endswith typename ".py" = false ->
  matches_component_type typename name namespace ->
  from_typename typename dirpath = Ok (GlobalComponentKey name namespace).
Proof.
  intros He Hm. apply COMPONENT_TYPE_REGEX_match_spec in Hm.
  unfold from_typename, Global_from_typename, _name_and_namespace_from_type.
  now rewrite He, Hm.
Qed.

Lemma endswith_py_no_match (typename : string) :
  endswith typename ".py" = true -> COMPONENT_TYPE_REGEX_match typename = None.
Proof.
  intros He. destruct (COMPONENT_TYPE_REGEX_match typename) as [[n ns]|] eqn:Em;
    [|reflexivity].
  apply COMPONENT_TYPE_REGEX_match_chars in Em.
  rewrite (endswith_forall _ _ _ He) in Em; [discriminate | reflexivity].
Qed.

(** C4: the branch of [ComponentKey.from_typename] for a type name ending in
    [.py] hands the whole name to the [name@namespace] pattern, which no text
    holding a dot matches: every such call raises [ValueError] and none
    returns a [LocalComponentKey]. *)
Theorem from_typename_py_raises (typename dirpath : string) :
  endswith typename ".py" = true ->
  from_typename typename dirpath =
  Raise (ValueError ("Invalid component type name: " ++ typename)).
Proof.
  intros He. unfold from_typename, Local_from_type, _name_and_namespace_from_type.
  now rewrite He, (endswith_py_no_match _ He).
Qed.

Lemma from_typename_py_raises_witness :
  endswith "widget@proj.py" ".py" = true /\
  from_typename "widget@proj.py" "proj/defs" =
  Raise (ValueError "Invalid component type name: widget@proj.py").
Proof.
  split; [reflexivity|].
  apply (from_typename_py_raises "widget@proj.py" "proj/defs"). reflexivity.
Defined.

Lemma no_match_raises (typename dirpath : string) :
  COMPONENT_TYPE_REGEX_match typename = None ->
  from_typename typename dirpath =
  Raise (ValueError ("Invalid component type name: " ++ typename)).
Proof.
  intros Hm.
  unfold from_typename, Local_from_type, Global_from_typename,
    _name_and_namespace_from_type.
  rewrite Hm. now destruct (endswith typename ".py").
Qed.

Lemma local_text_no_match (name namespace dirpath : string) :
  COMPONENT_TYPE_REGEX_match (to_typename (LocalComponentKey name namespace dirpath))
  = None.
Proof.
  destruct (COMPONENT_TYPE_REGEX_match _) as [[n ns]|] eqn:Em; [|reflexivity].
  apply COMPONENT_TYPE_REGEX_match_chars in Em. simpl to_typename in Em.
  repeat (rewrite string_forall_app in Em; simpl in Em).
  repeat match type of Em with
         | _ && _ = true => apply andb_true_iff in Em as [_ Em]
         end.
  discriminate.
Qed.

(** C5, as the code has it: the text of a global key parses back to the key,
    whatever directory is passed along; the text of a local key,
    [name@namespace (dirpath)], is not a type name and parsing it raises
    [ValueError]; a local key is rebuilt by [LocalComponentKey.from_type]
    from the bare [name@namespace] and its directory. *)
Theorem key_text_round_trip (name namespace dirpath : string) :
  is_word name = true -> is_word namespace = true ->
  (forall d, from_typename (to_typename (GlobalComponentKey name namespace)) d
             = Ok (GlobalComponentKey name namespace)) /\
  from_typename (to_typename (LocalComponentKey name namespace dirpath)) dirpath
  = Raise (ValueError ("Invalid component type name: "
                       ++ to_typename (LocalComponentKey name namespace dirpath))) /\
  Local_from_type (to_typename (GlobalComponentKey name namespace)) dirpath
  = Ok (LocalComponentKey name namespace dirpath).
Proof.
  intros Hn Hns.
  assert (Hm : COMPONENT_TYPE_REGEX_match (to_typename (GlobalComponentKey name namespace))
               = Some (name, namespace)).
  { apply COMPONENT_TYPE_REGEX_match_spec. repeat split; auto. }
  repeat split.
  - intros d. apply from_typename_global.
    + destruct (endswith _ ".py") eqn:He; [|reflexivity].
      apply endswith_py_no_match in He. congruence.
    + now apply COMPONENT_TYPE_REGEX_match_spec.
  - apply no_match_raises, local_text_no_match.
  - unfold Local_from_type, _name_and_namespace_from_type. now rewrite Hm.
Qed.

Lemma key_text_round_trip_witness :
  (forall d, from_typename (to_typename (GlobalComponentKey "widget" "proj")) d
             = Ok (GlobalComponentKey "widget" "proj")) /\
  from_typename (to_typename (LocalComponentKey "widget" "proj" "proj/defs")) "proj/defs"
  = Raise (ValueError ("Invalid component type name: "
                       ++ to_typename (LocalComponentKey "widget" "proj" "proj/defs"))) /\
  Local_from_type (to_typename (GlobalComponentKey "widget" "proj")) "proj/defs"
  = Ok (LocalComponentKey "widget" "proj" "proj/defs").
Proof.
  apply (key_text_round_trip "widget" "proj" "proj/defs"); reflexivity.
Defined.

(** C5 as stated fails on the local variant: the key below has a valid name
    and namespace, and parsing its text with its own directory does not give
    the key back. *)
Lemma local_key_text_not_parsed :
  is_word "widget" = true /\ is_word "proj" = true /\
  from_typename (to_typename (LocalComponentKey "widget" "proj" "proj/defs")) "proj/defs"
  <> Ok (LocalComponentKey "widget" "proj" "proj/defs").
Proof. repeat split. vm_compute. discriminate. Qed.

(** ** Dictionaries *)

Section DictFacts.

Variables K V : Type.
Variable K_eq_dec : forall a b : K, {a = b} + {a <> b}.

Lemma dict_get_In (k : K) (v : V) (d : dict K V) :
  dict_get K_eq_dec k d = Some v -> In (k, v) d.
Proof.
  induction d as [|[k' v'] d IH]; simpl; [discriminate|].
  destruct (K_eq_dec k k') as [->|Hk]; intros H.
  - inversion H. now left.
  - right. auto.
Qed.

Lemma In_dict_get (k : K) (v : V) (d : dict K V) :
  NoDup (dict_keys d) -> In (k, v) d -> dict_get K_eq_dec k d = Some v.
Proof.
  unfold dict_keys.
  induction d as [|[k' v'] d IH]; simpl; [tauto|].
  intros Hnd [Heq|Hin]; inversion Hnd as [|? ? Hnot Hnd']; subst.
  - inversion Heq; subst. destruct (K_eq_dec k k); [reflexivity | congruence].
  - destruct (K_eq_dec k k') as [->|Hk]; [|auto].
    exfalso. apply Hnot. change k' with (fst (k', v)). now apply in_map.
Qed.

Lemma dict_get_None (k : K) (d : dict K V) :
  dict_get K_eq_dec k d = None <-> ~ In k (dict_keys d).
Proof.
  unfold dict_keys.
  induction d as [|[k' v'] d IH]; simpl; [tauto|].
  destruct (K_eq_dec k k') as [->|Hk].
  - split; [discriminate | intros H; exfalso; auto].
  - rewrite IH. split; intros H; [intros [E|E]; [congruence | auto] | auto].
Qed.

Lemma dict_contains_iff (k : K) (d : dict K V) :
  dict_contains K_eq_dec k d = true <-> In k (dict_keys d).
Proof.
  unfold dict_contains.
  destruct (dict_get K_eq_dec k d) as [v|] eqn:E.
  - split; [intros _ | reflexivity].
    apply dict_get_In in E. change k with (fst (k, v)). now apply in_map.
  - split; [discriminate|]. intros H. now apply dict_get_None in E.
Qed.

Lemma dict_keys_set (k : K) (v : V) (d : dict K V) (k' : K) :
  In k' (dict_keys (dict_set K_eq_dec k v d)) <-> k' = k \/ In k' (dict_keys d).
Proof.
  unfold dict_keys.
  induction d as [|[k0 v0] d IH]; simpl.
  - intuition.
  - destruct (K_eq_dec k k0) as [->|Hk]; simpl; [intuition|].
    rewrite IH. intuition.
Qed.

Lemma dict_set_NoDup (k : K) (v : V) (d : dict K V) :
  NoDup (dict_keys d) -> NoDup (dict_keys (dict_set K_eq_dec k v d)).
Proof.
  unfold dict_keys.
  induction d as [|[k0 v0] d IH]; simpl; intros Hnd.
  - constructor; [tauto | constructor].
  - inversion Hnd as [|? ? Hnot Hnd']; subst.
    destruct (K_eq_dec k k0) as [->|Hk]; simpl.
    + now constructor.
    + constructor; [|auto]. intros Hin.
      apply (dict_keys_set k v d k0) in Hin as [E|Hin]; [congruence | auto].
Qed.

Lemma dict_get_set (k : K) (v : V) (d : dict K V) (k' : K) :
  dict_get K_eq_dec k' (dict_set K_eq_dec k v d) =
  if K_eq_dec k' k then Some v else dict_get K_eq_dec k' d.
Proof.
  induction d as [|[k0 v0] d IH]; simpl.
  - reflexivity.
  - destruct (K_eq_dec k k0) as [->|Hk]; simpl.
    + destruct (K_eq_dec k' k0); reflexivity.
    + rewrite IH. destruct (K_eq_dec k' k0) as [->|]; [|reflexivity].
      destruct (K_eq_dec k0 k); [congruence | reflexivity].
Qed.

Lemma dict_update_NoDup (d other : dict K V) :
  NoDup (dict_keys d) -> NoDup (dict_keys (dict_update K_eq_dec d other)).
Proof.
  unfold dict_update. revert d.
  induction other as [|[k v] other IH]; simpl; intros d Hnd; [assumption|].
  apply IH. now apply dict_set_NoDup.
Qed.

Lemma dict_keys_update (d other : dict K V) (k : K) :
  In k (dict_keys (dict_update K_eq_dec d other)) <->
  In k (dict_keys d) \/ In k (dict_keys other).
Proof.
  unfold dict_update. revert d.
  induction other as [|[k0 v0] other IH]; simpl; intros d; [tauto|].
  rewrite IH, dict_keys_set. intuition.
Qed.

(** After [d.update(other)] a key of [other] holds [other]'s value, any
    other key keeps the value it had. *)
Lemma dict_get_update (d other : dict K V) (k : K) :
  NoDup (dict_keys other) ->
  dict_get K_eq_dec k (dict_update K_eq_dec d other) =
  match dict_get K_eq_dec k other with
  | Some v => Some v
  | None => dict_get K_eq_dec k d
  end.
Proof.
  unfold dict_update, dict_keys. revert d.
  induction other as [|[k0 v0] other IH]; simpl; intros d Hnd; [reflexivity|].
  inversion Hnd as [|? ? Hnot Hnd']; subst.
  rewrite IH by assumption.
  destruct (K_eq_dec k k0) as [->|Hk].
  - assert (E : dict_get K_eq_dec k0 other = None) by now apply dict_get_None.
    rewrite E, dict_get_set. destruct (K_eq_dec k0 k0); [reflexivity | congruence].
  - destruct (dict_get K_eq_dec k other); [reflexivity|].
    rewrite dict_get_set. destruct (K_eq_dec k k0); [congruence | reflexivity].
Qed.

End DictFacts.

(** ** Descriptors *)

Lemma is_field_iff (k : string) : is_field k = true <-> In k field_names.
Proof.
  unfold is_field. rewrite existsb_exists. split.
  - intros (x & Hx & E). apply String.eqb_eq in E. now subst.
  - intros H. exists k. split; [assumption | apply String.eqb_refl].
Qed.

Lemma dict_get_is_some (k : string) (kwargs : list (string * json)) :
  In k (map fst kwargs) -> exists v, dict_get string_dec k kwargs = Some v.
Proof.
  intros H. destruct (dict_get string_dec k kwargs) as [v|] eqn:E; [now exists v|].
  now apply dict_get_None in E.
Qed.

(** The keyword call succeeds exactly on the six field names. *)
Lemma RemoteComponentType_of_kwargs_ok (kwargs : list (string * json)) :
  (forall k, In k (map fst kwargs) <-> In k field_names) ->
  exists r, RemoteComponentType_of_kwargs (JObj kwargs) = Ok r /\
            dict_get string_dec "name" kwargs = Some (name r) /\
            dict_get string_dec "package" kwargs = Some (package r) /\
            dict_get string_dec "summary" kwargs = Some (summary r) /\
            dict_get string_dec "description" kwargs = Some (description r) /\
            dict_get string_dec "scaffold_params_schema" kwargs
            = Some (scaffold_params_schema r) /\
            dict_get string_dec "component_params_schema" kwargs
            = Some (component_params_schema r).
Proof.
  intros H. unfold RemoteComponentType_of_kwargs.
  assert (Hall : forallb (fun kv => is_field (fst kv)) kwargs = true).
  { apply forallb_forall. intros [k v] Hin. apply is_field_iff, H.
    change k with (fst (k, v)). now apply in_map. }
  rewrite Hall.
  destruct (dict_get_is_some "name" kwargs) as [n ->]; [apply H; simpl; tauto|].
  destruct (dict_get_is_some "package" kwargs) as [p ->]; [apply H; simpl; tauto|].
  destruct (dict_get_is_some "summary" kwargs) as [s ->]; [apply H; simpl; tauto|].
  destruct (dict_get_is_some "description" kwargs) as [d ->]; [apply H; simpl; tauto|].
  destruct (dict_get_is_some "scaffold_params_schema" kwargs) as [sc ->];
    [apply H; simpl; tauto|].
  destruct (dict_get_is_some "component_params_schema" kwargs) as [c ->];
    [apply H; simpl; tauto|].
  eexists. split; [reflexivity|]. simpl. repeat split.
Qed.

Lemma RemoteComponentType_of_kwargs_ok_inv (metadata : json) (r : RemoteComponentType) :
  RemoteComponentType_of_kwargs metadata = Ok r ->
  exists kwargs, metadata = JObj kwargs /\
                 forall k, In k (map fst kwargs) <-> In k field_names.
Proof.
  unfold RemoteComponentType_of_kwargs.
  destruct metadata as [| | | | | |kwargs]; try discriminate.
  destruct (forallb _ kwargs) eqn:Hall; [|discriminate].
  destruct (dict_get string_dec "name" kwargs) eqn:E1; [|discriminate].
  destruct (dict_get string_dec "package" kwargs) eqn:E2; [|discriminate].
  destruct (dict_get string_dec "summary" kwargs) eqn:E3; [|discriminate].
  destruct (dict_get string_dec "description" kwargs) eqn:E4; [|discriminate].
  destruct (dict_get string_dec "scaffold_params_schema" kwargs) eqn:E5; [|discriminate].
  destruct (dict_get string_dec "component_params_schema" kwargs) eqn:E6; [|discriminate].
  intros _. exists kwargs. split; [reflexivity|]. intros k. split.
  - intros Hin. apply in_map_iff in Hin as ([k' v] & <- & Hin).
    apply is_field_iff. rewrite forallb_forall in Hall. apply (Hall _ Hin).
  - intros Hin.
    assert (Hk : forall v, dict_get string_dec k kwargs = Some v -> In k (map fst kwargs)).
    { intros v Hv. apply dict_get_In in Hv. change k with (fst (k, v)). now apply in_map. }
    simpl in Hin.
    repeat (destruct Hin as [<-|Hin]; [eauto|]). contradiction.
Qed.

Lemma RemoteComponentType_of_kwargs_raises (metadata : json) (e : Exn) :
  RemoteComponentType_of_kwargs metadata = Raise e -> e = TypeError.
Proof.
  unfold RemoteComponentType_of_kwargs.
  destruct metadata as [| | | | | |kwargs]; try (intros H; inversion H; reflexivity).
  destruct (forallb _ kwargs); [|intros H; inversion H; reflexivity].
  repeat match goal with
         | |- context [match dict_get ?d ?k ?l with _ => _ end] =>
             destruct (dict_get d k l)
         end; intros H; inversion H; reflexivity.
Qed.

(** ** Translators *)

Lemma translate_single (make_key : string -> result ComponentKey)
    (typename : string) (metadata : json) :
  translate_items make_key [(typename, metadata)] [] =
  rbind (RemoteComponentType_of_kwargs metadata) (fun v =>
  rbind (make_key typename) (fun k => Ok [(k, v)])).
Proof.
  simpl. destruct (RemoteComponentType_of_kwargs metadata); simpl; [|reflexivity].
  now destruct (make_key typename).
Qed.

(** C9, as the code has it: a metadata object is accepted exactly when its
    keys are the six descriptor fields, optional ones included; the
    descriptor then holds the supplied values, a supplied [null] staying
    [None].  An object that leaves out any field, the optional ones too, or
    that has a key that is no field, makes both translators raise
    [TypeError]. *)
Theorem translators_need_every_field (typename n ns : string)
    (dirpath : Path) (kwargs : list (string * json)) :
  let raw_data := JObj [(typename, JObj kwargs)] in
  ((forall k, In k (map fst kwargs) <-> In k field_names) ->
   matches_component_type typename n ns ->
   exists r,
     (dict_get string_dec "name" kwargs = Some (name r) /\
      dict_get string_dec "package" kwargs = Some (package r) /\
      dict_get string_dec "summary" kwargs = Some (summary r) /\
      dict_get string_dec "description" kwargs = Some (description r) /\
      dict_get string_dec "scaffold_params_schema" kwargs
      = Some (scaffold_params_schema r) /\
      dict_get string_dec "component_params_schema" kwargs
      = Some (component_params_schema r)) /\
     _get_remote_type_mapping_from_raw_data raw_data
     = Ok [(GlobalComponentKey n ns, r)] /\
     _get_local_type_mapping_from_raw_data raw_data dirpath
     = Ok [(LocalComponentKey n ns dirpath, r)]) /\
  (~ (forall k, In k (map fst kwargs) <-> In k field_names) ->
   _get_remote_type_mapping_from_raw_data raw_data = Raise TypeError /\
   _get_local_type_mapping_from_raw_data raw_data dirpath = Raise TypeError).
Proof.
  intros raw_data. subst raw_data.
  unfold _get_remote_type_mapping_from_raw_data, _get_local_type_mapping_from_raw_data.
  cbn [json_items rbind]. rewrite !translate_single. split.
  - intros Hk Hm. apply COMPONENT_TYPE_REGEX_match_spec in Hm.
    destruct (RemoteComponentType_of_kwargs_ok kwargs Hk) as (r & -> & Hf).
    exists r. split; [exact Hf|].
    unfold Global_from_typename, Local_from_type, _name_and_namespace_from_type.
    rewrite Hm. split; reflexivity.
  - intros Hk.
    destruct (RemoteComponentType_of_kwargs (JObj kwargs)) as [r|e] eqn:E.
    + exfalso. apply Hk.
      apply RemoteComponentType_of_kwargs_ok_inv in E as (kw & Heq & Hkw).
      now inversion Heq; subst.
    + apply RemoteComponentType_of_kwargs_raises in E as ->. split; reflexivity.
Qed.

Lemma translators_need_every_field_witness :
  (exists r,
     _get_remote_type_mapping_from_raw_data
       (JObj [("Foo@ns", example_metadata "Foo" "p")])
     = Ok [(GlobalComponentKey "Foo" "ns", r)] /\ summary r = JNull) /\
  _get_remote_type_mapping_from_raw_data
    (JObj [("Foo@ns", JObj [("name", JStr "Foo"); ("package", JStr "p");
                            ("color", JStr "red")])])
  = Raise TypeError.
Proof.
  split.
  - destruct (translators_need_every_field "Foo@ns" "Foo" "ns" "proj/defs"
                [("name", JStr "Foo"); ("package", JStr "p"); ("summary", JNull);
                 ("description", JNull); ("scaffold_params_schema", JNull);
                 ("component_params_schema", JNull)]) as [Hok _].
    destruct Hok as (r & Hf & Hg & _).
    + intros k. simpl. intuition.
    + repeat split. now left.
    + exists r. split; [exact Hg|].
      destruct Hf as (_ & _ & Hs & _). simpl in Hs. congruence.
  - destruct (translators_need_every_field "Foo@ns" "Foo" "ns" "proj/defs"
                [("name", JStr "Foo"); ("package", JStr "p"); ("color", JStr "red")])
      as [_ Hbad].
    apply Hbad. intros H. destruct (H "color") as [Hc _].
    assert (X : In "color" field_names) by (apply Hc; simpl; tauto).
    simpl in X. repeat (destruct X as [X|X]; [discriminate|]). exact X.
Defined.

(** C9 as stated fails: a metadata object with the two required fields and
    none of the optional ones is refused by both translators. *)
Lemma required_fields_only_raises :
  let metadata := JObj [("name", JStr "Foo"); ("package", JStr "p")] in
  _get_remote_type_mapping_from_raw_data (JObj [("Foo@ns", metadata)])
  = Raise TypeError /\
  _get_local_type_mapping_from_raw_data (JObj [("Foo@ns", metadata)]) "proj/defs"
  = Raise TypeError.
Proof. split; reflexivity. Qed.

(** The end-to-end scenario of the spec: the raw global response with one
    fully spelled-out entry gives a registry whose entry has package [p]. *)
Example global_response_scenario :
  rbind (_get_remote_type_mapping_from_raw_data
           (JObj [("Foo@ns", example_metadata "Foo" "p")]))
        (fun m => rbind (get_global (new_registry m) (GlobalComponentKey "Foo" "ns"))
                        (fun d => Ok (package d)))
  = Ok (JStr "p").
Proof. reflexivity. Qed.

(** ** Membership *)

Lemma has_global_iff (r : RemoteComponentRegistry) (k : ComponentKey) :
  has_global r k = true <-> In k (dict_keys (_components r)).
Proof. apply dict_contains_iff. Qed.

(** The part of the has_global contract that the code keeps: a local key
    that is not stored is not found, whatever global keys share its name and
    namespace. *)
Lemma has_global_local_twin (r : RemoteComponentRegistry) (n ns d : string) :
  ~ In (LocalComponentKey n ns d) (dict_keys (_components r)) ->
  has_global r (LocalComponentKey n ns d) = false.
Proof.
  intros H. destruct (has_global r _) eqn:E; [|reflexivity].
  now apply has_global_iff in E.
Qed.

(** C3: [has_global] is a bare membership test, so it answers [True] for a
    local key that the registry stores, where the claim has it answer
    [False]. *)
Theorem has_global_stored_local_key (r : RemoteComponentRegistry) (k : ComponentKey) :
  is_global k = false -> In k (dict_keys (_components r)) -> has_global r k = true.
Proof. intros _ H. now apply has_global_iff. Qed.

Lemma has_global_stored_local_key_witness :
  has_global
    (new_registry [(GlobalComponentKey "widget" "proj", example_descriptor "widget" "p");
                   (LocalComponentKey "widget" "proj" "proj/defs",
                    example_descriptor "widget" "p")])
    (LocalComponentKey "widget" "proj" "proj/defs") = true.
Proof.
  apply (has_global_stored_local_key
           (new_registry
              [(GlobalComponentKey "widget" "proj", example_descriptor "widget" "p");
               (LocalComponentKey "widget" "proj" "proj/defs",
                example_descriptor "widget" "p")])
           (LocalComponentKey "widget" "proj" "proj/defs")).
  - reflexivity.
  - simpl. tauto.
Defined.

(** ** Order on texts and sorting *)

Lemma ascii_compare_refl (a : ascii) : Ascii.compare a a = Eq.
Proof. unfold Ascii.compare. apply N.compare_refl. Qed.

Lemma ascii_compare_lt_trans (a b c : ascii) :
  Ascii.compare a b = Lt -> Ascii.compare b c = Lt -> Ascii.compare a c = Lt.
Proof.
  unfold Ascii.compare. rewrite !N.compare_lt_iff. apply N.lt_trans.
Qed.

Lemma string_compare_refl (s : string) : String.compare s s = Eq.
Proof. induction s as [|c s IH]; simpl; [reflexivity|]. now rewrite ascii_compare_refl. Qed.

(** [compare] never answers [Gt] across two steps that do not. *)
Lemma string_compare_trans (s1 s2 s3 : string) :
  String.compare s1 s2 <> Gt -> String.compare s2 s3 <> Gt ->
  String.compare s1 s3 <> Gt.
Proof.
  revert s2 s3. induction s1 as [|a s1 IH]; intros [|b s2] [|c s3]; simpl;
    try congruence.
  destruct (Ascii.compare a b) eqn:Eab; try congruence;
    destruct (Ascii.compare b c) eqn:Ebc; try congruence.
  - apply Ascii.compare_eq_iff in Eab, Ebc. subst.
    rewrite ascii_compare_refl. apply IH.
  - apply Ascii.compare_eq_iff in Eab. subst. rewrite Ebc. congruence.
  - apply Ascii.compare_eq_iff in Ebc. subst. rewrite Eab. congruence.
  - rewrite (ascii_compare_lt_trans _ _ _ Eab Ebc). congruence.
Qed.

Lemma leb_iff (s1 s2 : string) : String.leb s1 s2 = true <-> String.compare s1 s2 <> Gt.
Proof. unfold String.leb. destruct (String.compare s1 s2); split; congruence. Qed.

Lemma leb_refl (s : string) : String.leb s s = true.
Proof. apply leb_iff. rewrite string_compare_refl. congruence. Qed.

Lemma leb_trans (s1 s2 s3 : string) :
  String.leb s1 s2 = true -> String.leb s2 s3 = true -> String.leb s1 s3 = true.
Proof. rewrite !leb_iff. apply string_compare_trans. Qed.

Section SortedBy.

Variable A : Type.
Variable f : A -> string.

Lemma insert_by_perm (x : A) (l : list A) : Permutation (insert_by f x l) (x :: l).
Proof.
  induction l as [|y l IH]; simpl; [reflexivity|].
  destruct (String.leb (f x) (f y)); [reflexivity|].
  rewrite IH. apply perm_swap.
Qed.

Lemma sorted_by_perm (l : list A) : Permutation (sorted_by f l) l.
Proof.
  induction l as [|x l IH]; simpl; [reflexivity|].
  rewrite insert_by_perm. now constructor.
Qed.

Lemma insert_by_sorted (x : A) (l : list A) :
  StronglySorted (le_by f) l -> StronglySorted (le_by f) (insert_by f x l).
Proof.
  induction l as [|y l IH]; simpl; intros Hs.
  - constructor; constructor.
  - inversion Hs as [|? ? Hs' Hall]; subst.
    destruct (String.leb (f x) (f y)) eqn:E.
    + constructor; [assumption|]. constructor; [exact E|].
      eapply Forall_impl; [|exact Hall]. intros z Hz. exact (leb_trans _ _ _ E Hz).
    + constructor; [auto|].
      assert (Hyx : le_by f y x).
      { destruct (String.leb_total (f x) (f y)) as [H|H]; [congruence | exact H]. }
      rewrite insert_by_perm. now constructor.
Qed.

Lemma sorted_by_sorted (l : list A) : StronglySorted (le_by f) (sorted_by f l).
Proof.
  induction l as [|x l IH]; simpl; [constructor|]. now apply insert_by_sorted.
Qed.

Lemma filter_sorted (p : A -> bool) (l : list A) :
  StronglySorted (le_by f) l -> StronglySorted (le_by f) (filter p l).
Proof.
  induction 1 as [|x l Hs IH Hall]; simpl; [constructor|].
  destruct (p x); [|assumption].
  constructor; [assumption|].
  apply Forall_forall. intros y Hy. apply filter_In in Hy as [Hy _].
  rewrite Forall_forall in Hall. auto.
Qed.

End SortedBy.

Lemma sorted_map_fst (A B : Type) (f : A -> string) (l : list (A * B)) :
  StronglySorted (le_by f) (map fst l) ->
  StronglySorted (le_by (fun kv => f (fst kv))) l.
Proof.
  induction l as [|x l IH]; simpl; intros Hs; [constructor|].
  inversion Hs as [|? ? Hs' Hall]; subst. constructor; [auto|].
  rewrite Forall_map in Hall. exact Hall.
Qed.

(** ** Enumeration of the global entries *)

Lemma global_keys_spec (r : RemoteComponentRegistry) (k : ComponentKey) :
  In k (global_keys r) <-> is_global k = true /\ In k (dict_keys (_components r)).
Proof.
  unfold global_keys. rewrite filter_In. split; intros [H1 H2]; split; auto.
  - eapply Permutation_in; [apply sorted_by_perm | exact H1].
  - eapply Permutation_in; [symmetry; apply sorted_by_perm | exact H2].
Qed.

Lemma pair_with_global_ok (r : RemoteComponentRegistry) (keys : list ComponentKey) :
  Forall (fun k => is_global k = true /\ In k (dict_keys (_components r))) keys ->
  exists items,
    pair_with_global r keys = Ok items /\ map fst items = keys /\
    Forall (fun kv => dict_get ComponentKey_eq_dec (fst kv) (_components r)
                      = Some (snd kv)) items.
Proof.
  induction 1 as [|k keys [Hg Hin] _ (items & E & Hm & Hf)]; simpl.
  - exists []. repeat split. constructor.
  - unfold get_global, subscript. rewrite Hg. simpl.
    destruct (dict_get ComponentKey_eq_dec k (_components r)) as [v|] eqn:Ek.
    + simpl. rewrite E. simpl. exists ((k, v) :: items).
      repeat split; [simpl; congruence | now constructor].
    + now apply dict_get_None in Ek.
Qed.

(** C8: [global_items] runs to its end without raising; the pairs it yields
    are the entries of the mapping whose key is global, each once and with
    the descriptor stored under it, none else; and they come in ascending
    order of the keys' text.  The hypothesis is the invariant of a [dict],
    that a key occurs once. *)
Theorem global_items_sorted_exact (r : RemoteComponentRegistry) :
  NoDup (dict_keys (_components r)) ->
  exists items,
    global_items r = Ok items /\
    Permutation items (filter (fun kv => is_global (fst kv)) (_components r)) /\
    NoDup (map fst items) /\
    StronglySorted (le_by (fun kv => to_typename (fst kv))) items.
Proof.
  intros Hnd. unfold global_items.
  destruct (@pair_with_global_ok r (global_keys r)) as (items & E & Hm & Hf).
  { apply Forall_forall. intros k. apply global_keys_spec. }
  assert (Hkeys : NoDup (global_keys r)).
  { unfold global_keys. apply NoDup_filter.
    eapply Permutation_NoDup; [symmetry; apply sorted_by_perm | exact Hnd]. }
  exists items. split; [exact E|]. split; [|split].
  - apply NoDup_Permutation.
    + apply (NoDup_map_inv fst). now rewrite Hm.
    + apply NoDup_filter. now apply (NoDup_map_inv fst).
    + intros [k v]. rewrite filter_In. simpl. split.
      * intros Hin. rewrite Forall_forall in Hf.
        pose proof (Hf _ Hin) as Hv. simpl in Hv.
        split; [now apply dict_get_In in Hv|].
        assert (Hk : In k (global_keys r)).
        { rewrite <- Hm. change k with (fst (k, v)). now apply in_map. }
        now apply global_keys_spec in Hk.
      * intros [Hin Hg].
        assert (Hk : In k (global_keys r)).
        { apply global_keys_spec. split; [exact Hg|].
          change k with (fst (k, v)). now apply in_map. }
        rewrite <- Hm in Hk. apply in_map_iff in Hk as ([k' v'] & Hfst & Hin').
        simpl in Hfst. subst k'.
        rewrite Forall_forall in Hf. pose proof (Hf _ Hin') as Hv. simpl in Hv.
        rewrite (In_dict_get ComponentKey_eq_dec _ _ _ Hnd Hin) in Hv.
        now inversion Hv; subst.
  - now rewrite Hm.
  - apply sorted_map_fst. rewrite Hm. unfold global_keys.
    apply filter_sorted, sorted_by_sorted.
Qed.

Lemma global_items_sorted_exact_witness :
  NoDup (dict_keys (_components example_registry)) /\
  exists items,
    global_items example_registry = Ok items /\
    Permutation items
      (filter (fun kv => is_global (fst kv)) (_components example_registry)) /\
    NoDup (map fst items) /\
    StronglySorted (le_by (fun kv => to_typename (fst kv))) items.
Proof.
  assert (H : NoDup (dict_keys (_components example_registry))).
  { simpl. repeat constructor; simpl; intuition discriminate. }
  split; [exact H | exact (global_items_sorted_exact example_registry H)].
Defined.

(** On the example the enumeration is the two global entries, [asset@lib]
    before [widget@proj]. *)
Example global_items_example :
  global_items example_registry =
  Ok [(GlobalComponentKey "asset" "lib", example_descriptor "asset" "l");
      (GlobalComponentKey "widget" "proj", example_descriptor "widget" "p")].
Proof. reflexivity. Qed.

(** ** Runs *)

Unset Implicit Arguments.

Section ConstructionFacts.

Variable Key : Type.
Variable Key_eq_dec : forall a b : Key, {a = b} + {a <> b}.
Variable key_truthy : Key -> bool.
Variable json_loads : string -> option json.
Variable json_dumps : json -> string.
Variable set_order : list Path -> list Path.

Lemma bind_ok (A B : Type) (m : M Key A) (k : A -> M Key B) (c : Cache Key) (a : A) :
  outcome (m c) = Ok a ->
  bind m k c =
  {| events := events (m c) ++ events (k a (cache_after (m c)));
     cache_after := cache_after (k a (cache_after (m c)));
     outcome := outcome (k a (cache_after (m c))) |}.
Proof. intros H. unfold bind. now rewrite H. Qed.

Lemma bind_raise (A B : Type) (m : M Key A) (k : A -> M Key B) (c : Cache Key) (e : Exn) :
  outcome (m c) = Raise e ->
  bind m k c =
  {| events := events (m c); cache_after := cache_after (m c); outcome := Raise e |}.
Proof. intros H. unfold bind. now rewrite H. Qed.

Lemma external_calls_app (l1 l2 : list (Event Key)) :
  external_calls (l1 ++ l2) = external_calls l1 ++ external_calls l2.
Proof. apply flat_map_app. Qed.

Lemma cache_writes_app (l1 l2 : list (Event Key)) :
  cache_writes (l1 ++ l2) = cache_writes l1 ++ cache_writes l2.
Proof. apply flat_map_app. Qed.

(** ** The loop that reads the cache *)

Variable ctx : DgContext Key.

Local Abbreviation key_of := (get_cache_key_for_local_components ctx).
Local Abbreviation entry := (cached_entry Key_eq_dec json_loads ctx).
Local Abbreviation read := (read_cached Key_eq_dec json_loads ctx).

(** The loop only reads: it calls no external process, writes nothing and
    leaves the cache as it was. *)
Lemma read_cached_quiet (paths : list Path) (st : type_mapping * list Path)
    (c : Cache Key) :
  cache_after (read paths st c) = c /\
  external_calls (events (read paths st c)) = [] /\
  cache_writes (events (read paths st c)) = [].
Proof.
  revert st. induction paths as [|p rest IH]; intros st; simpl.
  - auto.
  - unfold bind at 1. simpl.
    destruct (dict_get Key_eq_dec (key_of p) c) as [[|ch raw]|]; simpl;
      try (destruct (IH st) as (H1 & H2 & H3); now rewrite H1, H2, H3).
    unfold loads, lift, bind. simpl.
    destruct (json_loads (String ch raw)) as [j|]; simpl; [|auto].
    destruct (_get_local_type_mapping_from_raw_data j p) as [m|e]; simpl; [|auto].
    destruct (set_remove p (snd st)) as [f|e]; simpl; [|auto].
    destruct (IH (dict_update ComponentKey_eq_dec (fst st) m, f)) as (H1 & H2 & H3).
    now rewrite H1, H2, H3.
Qed.

Lemma read_cached_miss (p : Path) (rest : list Path) (st : type_mapping * list Path)
    (c : Cache Key) :
  entry c p = None ->
  outcome (read (p :: rest) st c) = outcome (read rest st c).
Proof.
  unfold cached_entry. intros H. simpl. unfold bind at 1. simpl.
  destruct (dict_get Key_eq_dec (key_of p) c) as [[|ch raw]|]; simpl;
    [reflexivity | discriminate | reflexivity].
Qed.

Lemma read_cached_hit (p : Path) (rest : list Path) (st : type_mapping * list Path)
    (c : Cache Key) (r : result type_mapping) :
  entry c p = Some r ->
  outcome (read (p :: rest) st c) =
  match r with
  | Ok m =>
      match set_remove p (snd st) with
      | Ok f => outcome (read rest (dict_update ComponentKey_eq_dec (fst st) m, f) c)
      | Raise e => Raise e
      end
  | Raise e => Raise e
  end.
Proof.
  unfold cached_entry. intros H. simpl. unfold bind at 1. simpl.
  destruct (dict_get Key_eq_dec (key_of p) c) as [[|ch raw]|]; try discriminate.
  inversion H; subst; clear H. simpl.
  unfold loads, lift, bind. simpl.
  destruct (json_loads (String ch raw)) as [j|]; simpl; [|reflexivity].
  destruct (_get_local_type_mapping_from_raw_data j p) as [m|e]; simpl; [|reflexivity].
  destruct (set_remove p (snd st)) as [f|e]; reflexivity.
Qed.

(** ** Removing from the set of paths to fetch *)

Lemma set_remove_raise (p : Path) (s : list Path) (e : Exn) :
  set_remove p s = Raise e -> ~ In p s /\ e = KeyError (MissingPath p).
Proof.
  induction s as [|q s IH]; simpl.
  - intros H. inversion H. auto.
  - destruct (string_dec p q) as [->|Hpq]; [discriminate|].
    destruct (set_remove p s) as [f|e']; simpl; [discriminate|].
    intros H. inversion H; subst. destruct (IH eq_refl) as [Hn He].
    split; [intros [E|Hin]; [congruence | auto] | assumption].
Qed.

Lemma set_remove_absent (p : Path) (s : list Path) :
  ~ In p s -> set_remove p s = Raise (KeyError (MissingPath p)).
Proof.
  induction s as [|q s IH]; simpl; intros Hn; [reflexivity|].
  destruct (string_dec p q) as [->|Hpq]; [exfalso; auto|].
  rewrite IH by tauto. reflexivity.
Qed.

Lemma set_remove_ok (p : Path) (s f : list Path) :
  set_remove p s = Ok f ->
  In p s /\ (forall q, In q f -> In q s) /\
  (NoDup s -> f = filter (fun q => negb (String.eqb q p)) s /\ NoDup f).
Proof.
  revert f. induction s as [|q s IH]; simpl; intros f; [discriminate|].
  destruct (string_dec p q) as [->|Hpq].
  - intros H. inversion H; subst. split; [auto|]. split; [auto|].
    intros Hnd. inversion Hnd as [|? ? Hnot Hnd']; subst.
    rewrite String.eqb_refl. simpl. split; [|assumption].
    symmetry. apply forallb_filter_id. apply forallb_forall. intros x Hx.
    destruct (String.eqb_spec x q) as [->|]; [contradiction | reflexivity].
  - destruct (set_remove p s) as [f'|e] eqn:E; simpl; [|discriminate].
    intros H. inversion H; subst. destruct (IH _ eq_refl) as (Hin & Hsub & Hnd).
    split; [auto|]. split; [intros x [->|Hx]; [now left | right; auto]|].
    intros Hd. inversion Hd as [|? ? Hnot Hd']; subst.
    destruct (Hnd Hd') as [Hf Hnf].
    destruct (String.eqb_spec q p) as [->|_]; [congruence|]. simpl.
    split; [now rewrite <- Hf|]. constructor; [|assumption].
    intros Hq. apply Hnot. auto.
Qed.

Lemma set_remove_keeps (p q : Path) (s f : list Path) :
  set_remove p s = Ok f -> In q s -> q <> p -> In q f.
Proof.
  revert f. induction s as [|x s IH]; simpl; intros f; [discriminate|].
  destruct (string_dec p x) as [->|Hpx].
  - intros H. inversion H; subst. intros [E|Hin] Hq; [congruence | assumption].
  - destruct (set_remove p s) as [f'|e] eqn:E; simpl; [|discriminate].
    intros H. inversion H; subst. intros [E'|Hin] Hq; [now left | right; auto].
Qed.

Lemma entry_none_hit (c : Cache Key) (p : Path) :
  entry c p = None <-> local_hit Key_eq_dec ctx c p = false.
Proof.
  unfold cached_entry, local_hit, str_truthy.
  destruct (dict_get Key_eq_dec (key_of p) c) as [[|ch raw]|]; split;
    intros H; try reflexivity; discriminate.
Qed.

(** ** A directory listed twice *)

(** Once a cached path has left the set, meeting it again ends the loop with
    an exception. *)
Lemma read_after_removed (p : Path) (m : type_mapping) (c : Cache Key)
    (rest : list Path) (st : type_mapping * list Path) :
  entry c p = Some (Ok m) -> ~ In p (snd st) -> In p rest ->
  is_ok (outcome (read rest st c)) = false.
Proof.
  intros Hp. revert st. induction rest as [|q rest IH]; intros st Hn Hin;
    [contradiction|].
  destruct (entry c q) as [[mq|e]|] eqn:Eq.
  - erewrite read_cached_hit by exact Eq.
    destruct (string_dec q p) as [->|Hqp].
    + now rewrite (set_remove_absent _ _ Hn).
    + destruct (set_remove q (snd st)) as [f|e] eqn:Er; [|reflexivity].
      apply IH; simpl.
      * intros Hf. apply Hn. now apply (set_remove_ok _ _ _ Er).
      * destruct Hin as [E|Hin]; [congruence | assumption].
  - now erewrite read_cached_hit by exact Eq.
  - erewrite read_cached_miss by exact Eq. apply IH; [assumption|].
    destruct Hin as [E|Hin]; [congruence | assumption].
Qed.

Lemma read_duplicate_fails (p : Path) (m : type_mapping) (c : Cache Key)
    (paths : list Path) (st : type_mapping * list Path) :
  entry c p = Some (Ok m) -> NoDup (snd st) ->
  2 <= count_occ string_dec paths p ->
  is_ok (outcome (read paths st c)) = false.
Proof.
  intros Hp. revert st. induction paths as [|q rest IH]; intros st Hnd Hc;
    [simpl in Hc; lia|].
  destruct (string_dec q p) as [->|Hqp].
  - erewrite read_cached_hit by exact Hp.
    destruct (set_remove p (snd st)) as [f|e] eqn:Er; [|reflexivity].
    apply (read_after_removed p m); [assumption| |].
    + simpl. destruct (set_remove_ok _ _ _ Er) as (_ & _ & Hf).
      destruct (Hf Hnd) as [-> _]. intros Hin. apply filter_In in Hin as [_ Hin].
      now rewrite String.eqb_refl in Hin.
    + rewrite count_occ_cons_eq in Hc by reflexivity.
      apply (count_occ_In string_dec). unfold Path in *. lia.
  - rewrite count_occ_cons_neq in Hc by assumption.
    destruct (entry c q) as [[mq|e]|] eqn:Eq.
    + erewrite read_cached_hit by exact Eq.
      destruct (set_remove q (snd st)) as [f|e] eqn:Er; [|reflexivity].
      apply IH; [|assumption]. simpl.
      destruct (set_remove_ok _ _ _ Er) as (_ & _ & Hf). now apply Hf.
    + now erewrite read_cached_hit by exact Eq.
    + erewrite read_cached_miss by exact Eq. now apply IH.
Qed.

(** When every entry that the cache holds for the paths parses and
    translates, the loop can only fail by removing a path twice. *)
Lemma read_raise_is_duplicate (c : Cache Key) (paths seen : list Path)
    (st : type_mapping * list Path) (e : Exn) :
  Forall (fun q => forall e', entry c q <> Some (Raise e')) paths ->
  (forall q, In q paths -> In q (snd st) \/ In q seen) ->
  outcome (read paths st c) = Raise e ->
  exists q, e = KeyError (MissingPath q) /\
            In q paths /\ (2 <= count_occ string_dec paths q \/ In q seen).
Proof.
  revert st seen. induction paths as [|p rest IH]; intros st seen Hv Hcov Hr;
    [discriminate|].
  inversion Hv as [|? ? Hvp Hvr]; subst.
  destruct (entry c p) as [[m|e']|] eqn:Ep.
  - erewrite read_cached_hit in Hr by exact Ep.
    destruct (set_remove p (snd st)) as [f|e'] eqn:Er.
    + destruct (IH (dict_update ComponentKey_eq_dec (fst st) m, f) (p :: seen) Hvr)
        as (q & He & Hq & Hd); [|assumption|].
      * intros q Hq. simpl. destruct (string_dec p q) as [->|Hpq]; [auto|].
        destruct (Hcov q (or_intror Hq)) as [Hs|Hs]; [|auto]. left.
        apply (set_remove_keeps _ _ _ _ Er Hs). congruence.
      * exists q. split; [assumption|]. split; [now right|].
        destruct (string_dec p q) as [->|Hpq].
        -- left. rewrite count_occ_cons_eq by reflexivity.
           apply (count_occ_In string_dec) in Hq. unfold Path in *. lia.
        -- rewrite count_occ_cons_neq by assumption.
           destruct Hd as [Hd|[E|Hd]]; [auto | congruence | auto].
    + inversion Hr; subst. apply set_remove_raise in Er as [Hn ->].
      exists p. split; [reflexivity|]. split; [now left|]. right.
      destruct (Hcov p (or_introl eq_refl)); [contradiction | assumption].
  - now elim (Hvp e').
  - erewrite read_cached_miss in Hr by exact Ep.
    destruct (IH st seen Hvr) as (q & He & Hq & Hd); [|assumption|].
    + intros q Hq. apply Hcov. now right.
    + exists q. split; [assumption|]. split; [now right|].
      destruct Hd as [Hd|Hd]; [left | now right].
      destruct (string_dec p q) as [->|Hpq];
        [rewrite count_occ_cons_eq by reflexivity; unfold Path in *; lia
        |now rewrite count_occ_cons_neq by assumption].
Qed.

(** ** The write-back loop *)

Lemma write_back_quiet (j : json) (order : list Path) (c : Cache Key) :
  external_calls (events (write_back Key_eq_dec key_truthy json_loads json_dumps
                            ctx j order c)) = [].
Proof.
  revert c. induction order as [|p rest IH]; intros c; simpl; [reflexivity|].
  unfold bind at 1. unfold lift at 1. simpl.
  destruct (json_get_or_empty j (str_of_path p)) as [share|e]; simpl; [|reflexivity].
  unfold bind at 1.
  destruct (key_truthy (key_of p) && is_valid_json json_loads (json_dumps share));
    simpl; apply IH.
Qed.

(** On an object the loop does not raise, and its [cache.set] calls are those
    of [expected_writes]. *)
Lemma write_back_object (items : list (string * json)) (order : list Path)
    (c : Cache Key) :
  outcome (write_back Key_eq_dec key_truthy json_loads json_dumps ctx
             (JObj items) order c) = Ok tt /\
  cache_writes (events (write_back Key_eq_dec key_truthy json_loads json_dumps ctx
                          (JObj items) order c))
  = expected_writes key_truthy json_loads json_dumps ctx items order.
Proof.
  revert c. induction order as [|p rest IH]; intros c; [simpl; auto|].
  cbn [write_back expected_writes flat_map]. unfold share_text at 1 2 3.
  unfold bind, lift. cbn [outcome events cache_after json_get_or_empty].
  destruct (dict_get string_dec (str_of_path p) items) as [v|];
    cbn [outcome events cache_after app];
    match goal with
    | |- context [key_truthy ?k && is_valid_json json_loads ?t] =>
        destruct (key_truthy k && is_valid_json json_loads t)
    end;
    unfold cache_set, ret; cbn [outcome events cache_after app];
    match goal with
    | |- context [write_back _ _ _ _ _ _ rest ?c'] => destruct (IH c') as [H1 H2]
    end;
    rewrite H1; cbn [outcome events]; (split; [reflexivity|]);
    first [exact H2 | exact (f_equal (cons _) H2)].
Qed.

(** ** The set of paths left to fetch *)

Lemma filter_all (A : Type) (f : A -> bool) (l : list A) :
  (forall x, In x l -> f x = true) -> filter f l = l.
Proof.
  intros H. apply forallb_filter_id. now apply forallb_forall.
Qed.

Lemma filter_twice (A : Type) (f g : A -> bool) (l : list A) :
  filter f (filter g l) = filter (fun x => g x && f x) l.
Proof.
  induction l as [|x l IH]; simpl; [reflexivity|].
  destruct (g x); simpl; [destruct (f x); simpl; congruence | assumption].
Qed.

Lemma read_cached_fetch (c : Cache Key) (paths : list Path)
    (st st' : type_mapping * list Path) :
  NoDup (snd st) ->
  outcome (read paths st c) = Ok st' ->
  snd st' = filter (fun q => negb (existsb (String.eqb q) paths
                                   && local_hit Key_eq_dec ctx c q)) (snd st).
Proof.
  revert st. induction paths as [|p rest IH]; intros st Hnd Ho.
  - simpl in Ho. inversion Ho; subst. simpl. symmetry. now apply filter_all.
  - destruct (entry c p) as [[m|e]|] eqn:Ep.
    + erewrite read_cached_hit in Ho by exact Ep.
      destruct (set_remove p (snd st)) as [f|e] eqn:Er; [|discriminate].
      destruct (set_remove_ok _ _ _ Er) as (_ & _ & Hf).
      destruct (Hf Hnd) as [Heq Hnf].
      rewrite (IH (dict_update ComponentKey_eq_dec (fst st) m, f) Hnf Ho). simpl snd. rewrite Heq, filter_twice.
      apply filter_ext. intros q. simpl.
      assert (Hh : local_hit Key_eq_dec ctx c p = true).
      { destruct (local_hit Key_eq_dec ctx c p) eqn:E; [reflexivity|].
        apply entry_none_hit in E. congruence. }
      destruct (String.eqb_spec q p) as [->|Hqp]; simpl; [now rewrite Hh|reflexivity].
    + erewrite read_cached_hit in Ho by exact Ep. discriminate.
    + erewrite read_cached_miss in Ho by exact Ep.
      rewrite (IH _ Hnd Ho). apply filter_ext. intros q. simpl.
      apply entry_none_hit in Ep.
      destruct (String.eqb_spec q p) as [->|Hqp]; simpl; [|reflexivity].
      rewrite Ep. now rewrite !andb_false_r.
Qed.

(** The first half of [_retrieve_local_component_types], lines 108-116. *)
Local Abbreviation read_phase paths :=
  (if has_cache ctx
   then read paths ([], nodup string_dec paths)
   else ret ([], nodup string_dec paths)).

Lemma read_phase_quiet (paths : list Path) (c : Cache Key) :
  cache_after (read_phase paths c) = c /\
  external_calls (events (read_phase paths c)) = [] /\
  cache_writes (events (read_phase paths c)) = [].
Proof.
  destruct (has_cache ctx); [apply read_cached_quiet|].
  simpl. auto.
Qed.

Lemma read_phase_fetch (paths : list Path) (c : Cache Key)
    (st : type_mapping * list Path) :
  outcome (read_phase paths c) = Ok st ->
  snd st = paths_to_fetch Key_eq_dec ctx c paths.
Proof.
  unfold paths_to_fetch. destruct (has_cache ctx).
  - intros H. apply read_cached_fetch in H; [|apply NoDup_nodup].
    rewrite H. simpl snd. apply filter_ext_in. intros q Hq.
    apply nodup_In in Hq.
    assert (E : existsb (String.eqb q) paths = true).
    { apply existsb_exists. exists q. split; [assumption | apply String.eqb_refl]. }
    now rewrite E.
  - simpl. intros H. now inversion H.
Qed.

(** ** The shape of a run of [_retrieve_local_component_types] *)

Local Abbreviation retrieve :=
  (_retrieve_local_component_types Key_eq_dec key_truthy json_loads json_dumps
     set_order ctx).

Local Abbreviation local_args fetch :=
  ("list" :: "local-component-types" :: map str_of_path (set_order fetch)).

Local Abbreviation write fetch j :=
  (write_back Key_eq_dec key_truthy json_loads json_dumps ctx j (set_order fetch)).

Lemma retrieve_read_raise (paths : list Path) (c : Cache Key) (e : Exn) :
  outcome (read_phase paths c) = Raise e ->
  retrieve paths c =
  {| events := events (read_phase paths c); cache_after := c; outcome := Raise e |}.
Proof.
  intros H. unfold _retrieve_local_component_types.
  rewrite (bind_raise _ _ _ _ _ _ H).
  now rewrite (proj1 (read_phase_quiet paths c)).
Qed.

Lemma retrieve_read_ok (paths : list Path) (c : Cache Key)
    (st : type_mapping * list Path) :
  outcome (read_phase paths c) = Ok st ->
  retrieve paths c =
  match snd st with
  | [] => {| events := events (read_phase paths c); cache_after := c;
             outcome := Ok (fst st) |}
  | _ :: _ =>
      let args := local_args (snd st) in
      let called := events (read_phase paths c) ++ [ExternalCommand Key args] in
      match external_components_command ctx args with
      | Raise e => {| events := called; cache_after := c; outcome := Raise e |}
      | Ok raw =>
          match json_loads raw with
          | None => {| events := called; cache_after := c;
                       outcome := Raise JSONDecodeError |}
          | Some j =>
              match translate_fetched j (set_order (snd st)) (fst st) with
              | Raise e => {| events := called; cache_after := c; outcome := Raise e |}
              | Ok data =>
                  if has_cache ctx
                  then {| events := called ++ events (write (snd st) j c);
                          cache_after := cache_after (write (snd st) j c);
                          outcome := match outcome (write (snd st) j c) with
                                     | Ok _ => Ok data
                                     | Raise e => Raise e
                                     end |}
                  else {| events := called; cache_after := c; outcome := Ok data |}
              end
          end
      end
  end.
Proof.
  intros H. unfold _retrieve_local_component_types.
  rewrite (bind_ok _ _ _ _ _ _ H).
  rewrite (proj1 (read_phase_quiet paths c)).
  destruct (snd st) as [|p fetch]; simpl.
  - now rewrite app_nil_r.
  - unfold bind, external, loads, lift, ret. simpl.
    destruct (external_components_command ctx _) as [raw|e]; simpl; [|reflexivity].
    destruct (json_loads raw) as [j|]; simpl; [|reflexivity].
    destruct (translate_fetched j _ (fst st)) as [data|e]; simpl; [|reflexivity].
    destruct (has_cache ctx); simpl.
    + destruct (outcome (write_back _ _ _ _ _ _ _ _)); simpl;
        rewrite ?app_nil_r, <- ?app_assoc; reflexivity.
    + reflexivity.
Qed.

(** ** The shape of a run of [from_dg_context] *)

Local Abbreviation global :=
  (global_component_data Key_eq_dec key_truthy json_loads ctx).

Local Abbreviation construct :=
  (from_dg_context Key_eq_dec key_truthy json_loads json_dumps set_order ctx).

Local Abbreviation lock_events :=
  (if use_dg_managed_environment ctx then [EnsureUvLock Key] else []).

Local Abbreviation registry_key := (get_cache_key ctx "component_registry_data").

Lemma from_dg_context_run (dirs : option (list Path)) (c : Cache Key) :
  construct dirs c =
  match outcome (global c) with
  | Raise e => {| events := lock_events ++ events (global c);
                  cache_after := cache_after (global c); outcome := Raise e |}
  | Ok gd =>
      match dirs with
      | Some (d :: ds) =>
          {| events := lock_events ++ events (global c)
                       ++ events (retrieve (d :: ds) (cache_after (global c)));
             cache_after := cache_after (retrieve (d :: ds) (cache_after (global c)));
             outcome := match outcome (retrieve (d :: ds) (cache_after (global c))) with
                        | Ok m => Ok (new_registry
                                        (dict_update ComponentKey_eq_dec gd m))
                        | Raise e => Raise e
                        end |}
      | _ => {| events := lock_events ++ events (global c);
                cache_after := cache_after (global c);
                outcome := Ok (new_registry gd) |}
      end
  end.
Proof.
  unfold from_dg_context, bind, ensure_uv_lock, ret.
  destruct (use_dg_managed_environment ctx); simpl;
    destruct (outcome (global c)) as [gd|e]; simpl; try reflexivity;
    destruct dirs as [[|d ds]|]; simpl; rewrite ?app_nil_r; try reflexivity;
    destruct (outcome (retrieve (d :: ds) (cache_after (global c))));
    simpl; rewrite ?app_nil_r; reflexivity.
Qed.

(** With a non-empty entry under the registry key, the global listing comes
    from the cache alone. *)
Lemma global_hit (c : Cache Key) (ch : ascii) (raw : string) :
  has_cache ctx = true ->
  dict_get Key_eq_dec registry_key c = Some (String ch raw) ->
  global c =
  {| events := [CacheGet registry_key]; cache_after := c;
     outcome := match json_loads (String ch raw) with
                | None => Raise JSONDecodeError
                | Some j =>
                    match _get_remote_type_mapping_from_raw_data j with
                    | Ok m => Ok (dict_update ComponentKey_eq_dec [] m)
                    | Raise e => Raise e
                    end
                end |}.
Proof.
  intros Hc Hg. unfold global_component_data, bind, cache_get, ret, loads, lift.
  rewrite Hc. simpl. rewrite Hg. simpl.
  destruct (json_loads (String ch raw)) as [j|]; simpl; [|reflexivity].
  destruct (_get_remote_type_mapping_from_raw_data j); reflexivity.
Qed.

(** ** Invocations of the external process *)

(** A run of [_retrieve_local_component_types] invokes the external process
    at most once, with the local listing command and the paths left to
    fetch. *)
Lemma retrieve_external_calls (paths : list Path) (c : Cache Key) :
  external_calls (events (retrieve paths c)) = [] \/
  external_calls (events (retrieve paths c))
  = [local_args (paths_to_fetch Key_eq_dec ctx c paths)].
Proof.
  destruct (read_phase_quiet paths c) as (_ & Hq & _).
  destruct (outcome (read_phase paths c)) as [st|e] eqn:Hr.
  - rewrite (retrieve_read_ok _ _ _ Hr).
    rewrite <- (read_phase_fetch _ _ _ Hr).
    destruct (snd st) as [|p fetch]; [left; exact Hq|]. right.
    cbv zeta.
    destruct (external_components_command ctx _) as [raw|e];
      [destruct (json_loads raw) as [j|];
       [destruct (translate_fetched j _ (fst st)) as [data|e];
        [destruct (has_cache ctx)|]|]|];
      cbn [events]; rewrite ?external_calls_app, Hq, ?write_back_quiet;
      reflexivity.
  - rewrite (retrieve_read_raise _ _ _ Hr). left. exact Hq.
Qed.

(** C7: when the cache is available and holds a non-empty entry under the
    key of the global listing, a construction never invokes the external
    process with [list component-types]; whatever it invokes is the local
    listing command.  The entry need not even parse. *)
Theorem cached_global_listing_not_fetched (dirs : option (list Path))
    (c : Cache Key) (raw : string) :
  has_cache ctx = true ->
  dict_get Key_eq_dec registry_key c = Some raw ->
  raw <> "" ->
  ~ In ["list"; "component-types"] (external_calls (events (construct dirs c))) /\
  forall args, In args (external_calls (events (construct dirs c))) ->
               exists paths, args = "list" :: "local-component-types" :: paths.
Proof.
  intros Hc Hg Hraw.
  assert (H : forall args, In args (external_calls (events (construct dirs c))) ->
                           exists paths, args = "list" :: "local-component-types" :: paths).
  { destruct raw as [|ch raw]; [congruence|].
    rewrite from_dg_context_run, (global_hit _ _ _ Hc Hg). cbn [outcome events cache_after].
    assert (Hl : external_calls lock_events = []).
    { destruct (use_dg_managed_environment ctx); reflexivity. }
    destruct (json_loads (String ch raw)) as [j|];
      [destruct (_get_remote_type_mapping_from_raw_data j) as [gd|e]|];
      try (cbn [events]; rewrite external_calls_app, Hl; simpl; tauto).
    destruct dirs as [[|d ds]|];
      try (cbn [events]; rewrite external_calls_app, Hl; simpl; tauto).
    cbn [events]. rewrite !external_calls_app, Hl. simpl.
    intros args Hin.
    destruct (retrieve_external_calls (d :: ds) c) as [E|E]; rewrite E in Hin.
    - contradiction.
    - destruct Hin as [<-|[]]. eexists. reflexivity. }
  split; [|exact H].
  intros Hin. destruct (H _ Hin) as [paths E]. discriminate.
Qed.

(** ** A directory listed twice *)

Lemma retrieve_duplicate (paths : list Path) (c : Cache Key) (p : Path)
    (m : type_mapping) :
  has_cache ctx = true ->
  2 <= count_occ string_dec paths p ->
  entry c p = Some (Ok m) ->
  exists e, outcome (retrieve paths c) = Raise e /\
            external_calls (events (retrieve paths c)) = [] /\
            cache_writes (events (retrieve paths c)) = [] /\
            (Forall (fun q => forall e', entry c q <> Some (Raise e')) paths ->
             exists q, 2 <= count_occ string_dec paths q /\
                       e = KeyError (MissingPath q)).
Proof.
  intros Hc Hd Hp.
  destruct (read_phase_quiet paths c) as (_ & Hq & Hw).
  destruct (outcome (read_phase paths c)) as [st|e] eqn:Hr.
  - exfalso. rewrite Hc in Hr.
    pose proof (read_duplicate_fails p m c paths ([], nodup string_dec paths) Hp
                  (NoDup_nodup string_dec paths) Hd) as Hf.
    rewrite Hr in Hf. discriminate.
  - exists e. rewrite (retrieve_read_raise _ _ _ Hr). cbn [outcome events].
    repeat split; try assumption.
    intros Hv. rewrite Hc in Hr.
    destruct (read_raise_is_duplicate c paths [] ([], nodup string_dec paths) e Hv)
      as (q & He & _ & Hq2);
      [|exact Hr|].
    + intros q Hin. left. simpl. now apply nodup_In.
    + exists q. destruct Hq2 as [Hq2|[]]. auto.
Qed.

(** C10, as the code has it: with a cache, a directory that is listed twice
    and has a valid entry makes the construction fail, and it never returns
    a registry.  The failure is the [KeyError] of removing a directory from
    the set of paths to fetch a second time, raised before any local fetch,
    provided nothing raised before it: the global listing was obtained and
    every entry the cache holds for the directories is valid.  Otherwise the
    earlier exception is the one that propagates. *)
Theorem duplicate_cached_directory_raises (dirs : list Path) (c : Cache Key)
    (p : Path) (m : type_mapping) :
  has_cache ctx = true ->
  2 <= count_occ string_dec dirs p ->
  entry (cache_after (global c)) p = Some (Ok m) ->
  is_ok (outcome (construct (Some dirs) c)) = false /\
  (is_ok (outcome (global c)) = true ->
   Forall (fun q => forall e, entry (cache_after (global c)) q <> Some (Raise e)) dirs ->
   exists q, 2 <= count_occ string_dec dirs q /\
             outcome (construct (Some dirs) c) = Raise (KeyError (MissingPath q)) /\
             external_calls (events (retrieve dirs (cache_after (global c)))) = []).
Proof.
  intros Hc Hd Hp.
  destruct (retrieve_duplicate dirs (cache_after (global c)) p m Hc Hd Hp)
    as (e & Ho & Hx & _ & Hk).
  rewrite from_dg_context_run.
  destruct dirs as [|d ds]; [simpl in Hd; lia|].
  destruct (outcome (global c)) as [gd|eg]; cbn [outcome is_ok].
  - rewrite Ho. split; [reflexivity|]. intros _ Hv.
    destruct (Hk Hv) as (q & Hq & ->). exists q. auto.
  - split; [reflexivity | discriminate].
Qed.

(** ** Entries that do not parse *)

Lemma read_corrupt_fails (c : Cache Key) (p : Path) (e : Exn) (paths : list Path)
    (st : type_mapping * list Path) :
  entry c p = Some (Raise e) -> In p paths ->
  is_ok (outcome (read paths st c)) = false.
Proof.
  intros Hp. revert st. induction paths as [|q rest IH]; intros st Hin;
    [contradiction|].
  destruct (string_dec q p) as [->|Hqp].
  - now erewrite read_cached_hit by exact Hp.
  - assert (Hin' : In p rest) by (destruct Hin; [congruence | assumption]).
    destruct (entry c q) as [[mq|e']|] eqn:Eq.
    + erewrite read_cached_hit by exact Eq.
      destruct (set_remove q (snd st)); [now apply IH | reflexivity].
    + now erewrite read_cached_hit by exact Eq.
    + erewrite read_cached_miss by exact Eq. now apply IH.
Qed.

Lemma entry_corrupt (c : Cache Key) (p : Path) (raw : string) :
  dict_get Key_eq_dec (key_of p) c = Some raw -> raw <> "" ->
  json_loads raw = None ->
  entry c p = Some (Raise JSONDecodeError).
Proof.
  intros Hg Hraw Hl. unfold cached_entry. rewrite Hg.
  destruct raw as [|ch raw]; [congruence|]. now rewrite Hl.
Qed.

(** C2, as the code has it: a non-empty cached text that [json.loads]
    rejects is not taken for a miss.  Under the key of the global listing it
    makes the construction raise [JSONDecodeError]; under the key of a
    directory it makes [_retrieve_local_component_types] raise, with
    [JSONDecodeError] when the directory is the first one.  In both cases
    the external process is not invoked and nothing is written to the
    cache. *)
Theorem corrupt_cache_entry_raises (dirs : option (list Path)) (paths : list Path)
    (c : Cache Key) (raw : string) :
  has_cache ctx = true ->
  raw <> "" ->
  json_loads raw = None ->
  (dict_get Key_eq_dec registry_key c = Some raw ->
   outcome (construct dirs c) = Raise JSONDecodeError /\
   external_calls (events (construct dirs c)) = [] /\
   cache_writes (events (construct dirs c)) = []) /\
  (forall p, In p paths -> dict_get Key_eq_dec (key_of p) c = Some raw ->
   is_ok (outcome (retrieve paths c)) = false /\
   external_calls (events (retrieve paths c)) = [] /\
   cache_writes (events (retrieve paths c)) = [] /\
   cache_after (retrieve paths c) = c) /\
  (forall p rest, dict_get Key_eq_dec (key_of p) c = Some raw ->
   outcome (retrieve (p :: rest) c) = Raise JSONDecodeError).
Proof.
  intros Hc Hraw Hl. split; [|split].
  - intros Hg. destruct raw as [|ch raw]; [congruence|].
    rewrite from_dg_context_run, (global_hit _ _ _ Hc Hg), Hl.
    cbn [outcome events]. rewrite external_calls_app, cache_writes_app.
    destruct (use_dg_managed_environment ctx); auto.
  - intros p Hin Hg.
    pose proof (entry_corrupt c p raw Hg Hraw Hl) as Hp.
    destruct (read_phase_quiet paths c) as (_ & Hq & Hw).
    destruct (outcome (read_phase paths c)) as [st|e] eqn:Hr.
    + exfalso. rewrite Hc in Hr.
      pose proof (read_corrupt_fails c p _ paths ([], nodup string_dec paths) Hp Hin)
        as Hf.
      rewrite Hr in Hf. discriminate.
    + rewrite (retrieve_read_raise _ _ _ Hr). cbn [outcome events cache_after is_ok].
      auto.
  - intros p rest Hg.
    pose proof (entry_corrupt c p raw Hg Hraw Hl) as Hp.
    assert (Hr : outcome (read_phase (p :: rest) c) = Raise JSONDecodeError).
    { rewrite Hc. now erewrite read_cached_hit by exact Hp. }
    now rewrite (retrieve_read_raise _ _ _ Hr).
Qed.

(** ** Writing fetched listings back *)

Lemma translate_fetched_object (j : json) (p : Path) (rest : list Path)
    (data data' : type_mapping) :
  translate_fetched j (p :: rest) data = Ok data' -> exists items, j = JObj items.
Proof.
  simpl. unfold _get_local_type_mapping_from_raw_data.
  destruct j; simpl; try discriminate. eauto.
Qed.

(** Iterating over a set visits each of its elements once. *)
Hypothesis set_order_perm : forall l, Permutation (set_order l) l.

(** What the write-back loop writes when it is reached.  When the external
    process was invoked for the paths to fetch and its response is not JSON,
    the retrieval raises [JSONDecodeError], makes no [cache.set] call and
    leaves the cache as it was.  When the cache is available, there are
    paths to fetch and the retrieval returns, the response is a JSON object,
    and the [cache.set] calls are, in the order the paths are iterated: for
    each path whose cache key is true and whose text passes the validity
    check, its share of the response, or the empty object when the response
    does not name it, under the path's cache key. *)
Theorem fetched_shares_written (paths : list Path) (c : Cache Key) :
  let fetch := paths_to_fetch Key_eq_dec ctx c paths in
  (forall raw,
     In (local_args fetch) (external_calls (events (retrieve paths c))) ->
     external_components_command ctx (local_args fetch) = Ok raw ->
     json_loads raw = None ->
     outcome (retrieve paths c) = Raise JSONDecodeError /\
     cache_writes (events (retrieve paths c)) = [] /\
     cache_after (retrieve paths c) = c) /\
  (has_cache ctx = true -> fetch <> [] ->
   is_ok (outcome (retrieve paths c)) = true ->
   exists raw items,
     external_calls (events (retrieve paths c)) = [local_args fetch] /\
     external_components_command ctx (local_args fetch) = Ok raw /\
     json_loads raw = Some (JObj items) /\
     cache_writes (events (retrieve paths c))
     = expected_writes key_truthy json_loads json_dumps ctx items (set_order fetch)).
Proof.
  intros fetch. subst fetch.
  destruct (read_phase_quiet paths c) as (_ & Hq & Hw).
  destruct (outcome (read_phase paths c)) as [st|e] eqn:Hr.
  2:{ rewrite (retrieve_read_raise _ _ _ Hr). cbn [events outcome]. rewrite Hq.
      split; [intros raw []|]. intros _ _ H. discriminate. }
  rewrite (retrieve_read_ok _ _ _ Hr), <- (read_phase_fetch _ _ _ Hr).
  destruct (snd st) as [|p fetch] eqn:Hf.
  { cbn [events]. rewrite Hq. split; [intros raw []|]. intros _ H. congruence. }
  rewrite <- Hf. cbv zeta. split.
  - intros raw _ He Hl. rewrite He, Hl. cbn [outcome events cache_after].
    rewrite cache_writes_app, Hw. auto.
  - intros Hc _ Hok. rewrite Hc in Hok, Hq, Hw |- *.
    destruct (external_components_command ctx _) as [raw|e]; [|discriminate].
    destruct (json_loads raw) as [j|] eqn:Hl; [|discriminate].
    destruct (translate_fetched j (set_order (snd st)) (fst st)) as [data|e] eqn:Ht;
      [|discriminate].
    assert (Hj : exists items, j = JObj items).
    { destruct (set_order (snd st)) as [|q order] eqn:Ho.
      - pose proof (set_order_perm (snd st)) as Hp. rewrite Ho, Hf in Hp.
        now apply Permutation_nil in Hp.
      - eapply translate_fetched_object. exact Ht. }
    destruct Hj as [items ->]. exists raw, items.
    destruct (write_back_object items (set_order (snd st)) c) as [Ho Hws].
    cbn [events]. rewrite !external_calls_app, !cache_writes_app, Hq, Hw.
    rewrite write_back_quiet, Hws. auto.
Qed.

(** ** A response that holds a listing under a requested path *)

(** A value that translates as a listing is no set of descriptor fields: a
    type name holds an [@], a field name does not, and the empty listing
    lacks every field. *)
Lemma listing_not_kwargs (v : json) (p : Path) :
  is_ok (_get_local_type_mapping_from_raw_data v p) = true ->
  RemoteComponentType_of_kwargs v = Raise TypeError.
Proof.
  unfold _get_local_type_mapping_from_raw_data.
  destruct v as [| | | | | |l]; try reflexivity.
  destruct l as [|[t meta] l]; [reflexivity|].
  cbn [json_items rbind translate_items fst snd].
  destruct (RemoteComponentType_of_kwargs meta) as [d|e]; [|discriminate].
  cbn [rbind].
  destruct (Local_from_type t (str_of_path p)) as [k|e] eqn:Hk; [|discriminate].
  intros _.
  assert (Hf : is_field t = false).
  { destruct (is_field t) eqn:F; [|reflexivity]. exfalso.
    unfold Local_from_type, _name_and_namespace_from_type in Hk.
    apply is_field_iff in F. simpl in F.
    repeat (destruct F as [<-|F]; [vm_compute in Hk; discriminate|]).
    contradiction. }
  unfold RemoteComponentType_of_kwargs. cbn [forallb fst]. now rewrite Hf.
Qed.

Lemma translate_items_bad_descriptor (mk : string -> result ComponentKey)
    (items : list (string * json)) (data : type_mapping) (k : string) (v : json) :
  In (k, v) items -> RemoteComponentType_of_kwargs v = Raise TypeError ->
  is_ok (translate_items mk items data) = false.
Proof.
  revert data. induction items as [|[t meta] items IH]; intros data Hin Hv;
    [contradiction|]. destruct Hin as [Hin|Hin].
  - inversion Hin; subst. simpl. now rewrite Hv.
  - simpl. destruct (RemoteComponentType_of_kwargs meta); [|reflexivity].
    simpl. destruct (mk t); [|reflexivity]. simpl. now apply IH.
Qed.

(** C6: the claim's second half fails on the responses it speaks of.  When
    the external process was invoked for the paths to fetch and answered
    with a JSON object that holds, under one of those paths, a listing (a
    value that line 115 would translate when read back from the cache),
    the response is valid JSON and yet no [cache.set] call is made: line
    128 hands the whole response to the translator, which raises before
    the write-back of lines 130-135 is reached, and the cache is left as it
    was.  When every value of the response is such a listing, what is
    raised is [TypeError]. *)
Theorem fetched_listing_not_written (paths : list Path) (c : Cache Key)
    (raw : string) (items : list (string * json)) (p : Path) (v : json) :
  let fetch := paths_to_fetch Key_eq_dec ctx c paths in
  In (local_args fetch) (external_calls (events (retrieve paths c))) ->
  external_components_command ctx (local_args fetch) = Ok raw ->
  json_loads raw = Some (JObj items) ->
  In p fetch ->
  dict_get string_dec (str_of_path p) items = Some v ->
  is_ok (_get_local_type_mapping_from_raw_data v p) = true ->
  is_valid_json json_loads raw = true /\
  is_ok (outcome (retrieve paths c)) = false /\
  cache_writes (events (retrieve paths c)) = [] /\
  cache_after (retrieve paths c) = c /\
  (Forall (fun kv => is_ok (_get_local_type_mapping_from_raw_data (snd kv) (fst kv))
                     = true) items ->
   outcome (retrieve paths c) = Raise TypeError).
Proof.
  intros fetch. subst fetch. intros Hin He Hl Hp Hv Hlist.
  split; [unfold is_valid_json; now rewrite Hl|].
  destruct (read_phase_quiet paths c) as (_ & Hq & Hw).
  destruct (outcome (read_phase paths c)) as [st|e] eqn:Hr.
  2:{ rewrite (retrieve_read_raise _ _ _ Hr) in Hin. cbn [events] in Hin.
      rewrite Hq in Hin. contradiction. }
  rewrite (retrieve_read_ok _ _ _ Hr) in Hin |- *.
  rewrite <- (read_phase_fetch _ _ _ Hr) in He, Hp.
  destruct (snd st) as [|q0 fetch] eqn:Hf; [contradiction|].
  rewrite <- Hf in He |- *. cbv zeta. rewrite He, Hl.
  destruct (set_order (snd st)) as [|q order] eqn:Ho.
  { pose proof (set_order_perm (snd st)) as Hperm. rewrite Ho, Hf in Hperm.
    now apply Permutation_nil in Hperm. }
  pose proof (listing_not_kwargs v p Hlist) as Hbad.
  pose proof Hv as Hitem. apply dict_get_In in Hitem.
  assert (Hq0 : is_ok (_get_local_type_mapping_from_raw_data (JObj items) q) = false).
  { unfold _get_local_type_mapping_from_raw_data. cbn [json_items rbind].
    exact (translate_items_bad_descriptor _ _ _ _ _ Hitem Hbad). }
  cbn [translate_fetched].
  destruct (_get_local_type_mapping_from_raw_data (JObj items) q) as [m|e] eqn:Hm;
    [discriminate|].
  cbn [rbind events outcome cache_after is_ok].
  rewrite cache_writes_app, Hw.
  split; [reflexivity|]. split; [reflexivity|]. split; [reflexivity|].
  intros Hall. f_equal.
  unfold _get_local_type_mapping_from_raw_data in Hm. cbn [json_items rbind] in Hm.
  destruct items as [|[t meta] items]; [discriminate|].
  inversion Hall as [|? ? Hfirst _]; subst. cbn [fst snd] in Hfirst.
  apply listing_not_kwargs in Hfirst.
  cbn [translate_items] in Hm. rewrite Hfirst in Hm. cbn [rbind] in Hm.
  now inversion Hm.
Qed.

(** ** One directory cached, one to fetch *)

(** With [A] cached and valid and [B] not cached, the retrieval invokes the
    external process once, for [B] alone.  What it then translates for [B]
    is the response as a whole, not the value the response holds under
    [B]. *)
Lemma partial_cache_retrieval (c : Cache Key) (A B : Path) (mA : type_mapping) :
  has_cache ctx = true -> A <> B ->
  entry c A = Some (Ok mA) -> entry c B = None ->
  let args := ["list"; "local-component-types"; str_of_path B] in
  external_calls (events (retrieve [A; B] c)) = [args] /\
  outcome (retrieve [A; B] c) =
  match external_components_command ctx args with
  | Raise e => Raise e
  | Ok raw =>
      match json_loads raw with
      | None => Raise JSONDecodeError
      | Some response =>
          match _get_local_type_mapping_from_raw_data response B with
          | Raise e => Raise e
          | Ok mB =>
              Ok (dict_update ComponentKey_eq_dec
                    (dict_update ComponentKey_eq_dec [] mA) mB)
          end
      end
  end.
Proof.
  intros Hc Hab HA HB args. subst args.
  assert (Hn : nodup string_dec [A; B] = [A; B]).
  { apply nodup_fixed_point.
    constructor; [simpl; intros [E|[]]; congruence|].
    constructor; [simpl; tauto | constructor]. }
  assert (Hr : outcome (read_phase [A; B] c)
               = Ok (dict_update ComponentKey_eq_dec [] mA, [B])).
  { pose proof (read_cached_hit A [B] ([], [A; B]) c _ HA) as H1.
    pose proof (read_cached_miss B [] (dict_update ComponentKey_eq_dec [] mA, [B])
                  c HB) as H2.
    cbn [set_remove snd] in H1. destruct (string_dec A A) as [_|]; [|congruence].
    rewrite Hc, Hn. exact (eq_trans H1 H2). }
  assert (Ho : set_order [B] = [B]).
  { apply Permutation_length_1_inv. symmetry. apply set_order_perm. }
  destruct (read_phase_quiet [A; B] c) as (_ & Hq & _).
  rewrite (retrieve_read_ok _ _ _ Hr). cbn [snd fst]. cbv zeta. rewrite Ho.
  cbn [map]. rewrite Hc in Hq |- *.
  destruct (external_components_command ctx _) as [raw|e];
    [|cbn [events outcome]; rewrite external_calls_app, Hq; auto].
  destruct (json_loads raw) as [j|];
    [|cbn [events outcome]; rewrite external_calls_app, Hq; auto].
  cbn [translate_fetched].
  destruct (_get_local_type_mapping_from_raw_data j B) as [mB|e] eqn:Ht;
    cbn [rbind events outcome];
    [|rewrite external_calls_app, Hq; auto].
  assert (Hj : exists items, j = JObj items).
  { unfold _get_local_type_mapping_from_raw_data in Ht.
    destruct j; simpl in Ht; try discriminate. eauto. }
  destruct Hj as [items ->].
  destruct (write_back_object items [B] c) as [Hw _].
  rewrite Hw, !external_calls_app, Hq, write_back_quiet. auto.
Qed.

End ConstructionFacts.

(** ** Concrete runs *)

Lemma cached_global_listing_not_fetched_witness :
  let run := example_construct partial_cache_context (Some ["proj/a"; "proj/b"])
               partial_cache in
  ~ In ["list"; "component-types"] (external_calls (events run)) /\
  forall args, In args (external_calls (events run)) ->
               exists paths, args = "list" :: "local-component-types" :: paths.
Proof.
  apply (cached_global_listing_not_fetched string string_dec key_nonempty json_loads_lite
           json_dumps_lite same_order partial_cache_context
           (Some ["proj/a"; "proj/b"]) partial_cache "{}").
  - reflexivity.
  - reflexivity.
  - discriminate.
Defined.

Lemma duplicate_cached_directory_raises_witness :
  let run := example_construct partial_cache_context (Some ["proj/a"; "proj/a"])
               partial_cache in
  is_ok (outcome run) = false /\
  exists q, 2 <= count_occ string_dec ["proj/a"; "proj/a"] q /\
            outcome run = Raise (KeyError (MissingPath q)).
Proof.
  destruct (duplicate_cached_directory_raises string string_dec key_nonempty
              json_loads_lite json_dumps_lite same_order partial_cache_context
              ["proj/a"; "proj/a"] partial_cache "proj/a"
              [(LocalComponentKey "alpha" "proj" "proj/a",
                example_descriptor "alpha" "proj_lib")])
    as [Hfail Hkey].
  - reflexivity.
  - simpl. lia.
  - reflexivity.
  - split; [exact Hfail|].
    destruct Hkey as (q & Hq & Ho & _).
    + reflexivity.
    + repeat constructor; intros e; vm_compute; discriminate.
    + exists q. auto.
Defined.

(** C10 as stated fails on the exception raised: [proj/a] is listed twice
    and has a valid entry, but the entry of [proj/c], read first, is not
    JSON, and the construction ends with [JSONDecodeError] before any path
    is removed twice. *)
Lemma duplicate_after_corrupt_entry :
  let dirs := ["proj/c"; "proj/a"; "proj/a"] in
  let run := example_construct partial_cache_context (Some dirs) mixed_cache in
  has_cache partial_cache_context = true /\
  count_occ string_dec dirs "proj/a" = 2 /\
  cached_entry string_dec json_loads_lite partial_cache_context mixed_cache "proj/a"
  = Some (Ok [(LocalComponentKey "alpha" "proj" "proj/a",
               example_descriptor "alpha" "proj_lib")]) /\
  outcome run = Raise JSONDecodeError.
Proof. vm_compute. repeat split. Qed.

(** On the example the duplicate is answered with the [KeyError] of the
    second removal. *)
Example duplicate_directory_example :
  outcome (example_construct partial_cache_context (Some ["proj/a"; "proj/a"])
             partial_cache)
  = Raise (KeyError (MissingPath "proj/a")).
Proof. reflexivity. Qed.

Lemma corrupt_cache_entry_raises_witness :
  (outcome (example_construct (answering_context "{}") None corrupt_cache)
   = Raise JSONDecodeError /\
   external_calls (events (example_construct (answering_context "{}") None
                             corrupt_cache)) = []) /\
  outcome (example_retrieve (answering_context "{}") ["proj/a"; "proj/b"]
             corrupt_cache)
  = Raise JSONDecodeError.
Proof.
  destruct (corrupt_cache_entry_raises string string_dec key_nonempty json_loads_lite
              json_dumps_lite same_order (answering_context "{}") None
              ["proj/a"; "proj/b"] corrupt_cache "not json")
    as (Hglobal & _ & Hfirst).
  - reflexivity.
  - discriminate.
  - reflexivity.
  - split.
    + destruct Hglobal as (Ho & Hx & _); [reflexivity | auto].
    + apply Hfirst. reflexivity.
Defined.

(** C2 as stated fails: with a non-empty entry under the global key that is
    not JSON, the construction raises and never calls the external process,
    where on a miss it calls it and returns a registry. *)
Lemma corrupt_global_entry_not_a_miss :
  let hit := example_construct (answering_context "{}") None corrupt_cache in
  let miss := example_construct (answering_context "{}") None [] in
  dict_get string_dec (example_cache_key "component_registry_data") corrupt_cache
  = Some "not json" /\
  json_loads_lite "not json" = None /\
  outcome hit = Raise JSONDecodeError /\
  external_calls (events hit) = [] /\
  outcome miss = Ok (new_registry []) /\
  external_calls (events miss) = [["list"; "component-types"]].
Proof. vm_compute. repeat split. Qed.

Lemma fetched_shares_written_witness :
  (outcome (example_retrieve (answering_context "not json") ["proj/b"] [])
   = Raise JSONDecodeError /\
   cache_writes (events (example_retrieve (answering_context "not json")
                           ["proj/b"] [])) = []) /\
  exists raw items,
    json_loads_lite raw = Some (JObj items) /\
    cache_writes (events (example_retrieve (answering_context "{}") ["proj/b"] []))
    = expected_writes key_nonempty json_loads_lite json_dumps_lite
        (answering_context "{}") items ["proj/b"].
Proof.
  split.
  - destruct (fetched_shares_written string string_dec key_nonempty json_loads_lite
                json_dumps_lite same_order (answering_context "not json")
                (fun l => Permutation_refl l) ["proj/b"] []) as [Hbad _].
    destruct (Hbad "not json") as (Ho & Hw & _).
    + vm_compute. now left.
    + reflexivity.
    + reflexivity.
    + auto.
  - destruct (fetched_shares_written string string_dec key_nonempty json_loads_lite
                json_dumps_lite same_order (answering_context "{}")
                (fun l => Permutation_refl l) ["proj/b"] []) as [_ Hgood].
    destruct Hgood as (raw & items & _ & _ & Hl & Hw).
    + reflexivity.
    + discriminate.
    + reflexivity.
    + exists raw, items. auto.
Defined.

(** On the example the one fetched path is absent from the response, and
    the empty object is cached for it. *)
Example empty_share_example :
  cache_writes (events (example_retrieve (answering_context "{}") ["proj/b"] []))
  = [(example_local_key "proj/b", "{}")].
Proof. reflexivity. Qed.

(** A response that is valid JSON but no object: nothing is written for
    the path that was fetched; the retrieval raises on the first use of the
    response as an object. *)
Lemma valid_response_not_written :
  let run := example_retrieve (answering_context "[]") ["proj/b"] [] in
  json_loads_lite "[]" = Some (JArr []) /\
  external_calls (events run) = [["list"; "local-component-types"; "proj/b"]] /\
  outcome run = Raise AttributeError /\
  cache_writes (events run) = [].
Proof. vm_compute. repeat split. Qed.

(** The response of the example names the fetched path [proj/b] and holds
    its listing: it is valid JSON, the retrieval raises [TypeError] and
    nothing is written for [proj/b]. *)
Lemma fetched_listing_not_written_witness :
  let run := example_retrieve partial_cache_context ["proj/a"; "proj/b"]
               partial_cache in
  is_valid_json json_loads_lite (json_dumps_lite response_b) = true /\
  In ["list"; "local-component-types"; "proj/b"] (external_calls (events run)) /\
  outcome run = Raise TypeError /\
  cache_writes (events run) = [] /\
  cache_after run = partial_cache.
Proof.
  assert (Hcall : In ["list"; "local-component-types"; "proj/b"]
                    (external_calls
                       (events (example_retrieve partial_cache_context
                                  ["proj/a"; "proj/b"] partial_cache))))
    by (left; reflexivity).
  destruct (fetched_listing_not_written string string_dec key_nonempty json_loads_lite
              json_dumps_lite same_order partial_cache_context
              (fun l => Permutation_refl l) ["proj/a"; "proj/b"] partial_cache
              (json_dumps_lite response_b)
              [("proj/b", JObj [("beta@proj", example_metadata "beta" "proj_lib")])]
              "proj/b" (JObj [("beta@proj", example_metadata "beta" "proj_lib")]))
    as (H1 & _ & H3 & H4 & H5).
  - exact Hcall.
  - reflexivity.
  - reflexivity.
  - left. reflexivity.
  - reflexivity.
  - reflexivity.
  - split; [exact H1|]. split; [exact Hcall|].
    split; [|split; [exact H3 | exact H4]].
    apply H5. constructor; [reflexivity | constructor].
Defined.

(** C1: directories [proj/a] and [proj/b], the first with a valid cache
    entry and the second with none.  The external process is invoked once,
    for [proj/b] alone, and answers with an object that maps [proj/b] to its
    listing.  Line 128 translates that whole object as if it were a listing:
    the path is taken for a type name and the listing for a descriptor, and
    the construction raises [TypeError] instead of returning a registry with
    the entries of both directories. *)
Theorem partial_cache_fetch_raises :
  let run := example_construct partial_cache_context (Some ["proj/a"; "proj/b"])
               partial_cache in
  cached_entry string_dec json_loads_lite partial_cache_context partial_cache "proj/a"
  = Some (Ok [(LocalComponentKey "alpha" "proj" "proj/a",
               example_descriptor "alpha" "proj_lib")]) /\
  cached_entry string_dec json_loads_lite partial_cache_context partial_cache "proj/b"
  = None /\
  external_calls (events run) = [["list"; "local-component-types"; "proj/b"]] /\
  json_loads_lite (json_dumps_lite response_b) = Some response_b /\
  outcome run = Raise TypeError.
Proof. vm_compute. repeat split. Qed.

(** * Further properties of the code *)

(** ** Type names and keys *)

(** X1: [_name_and_namespace_from_type] returns a pair exactly for the texts
    of the form [name@namespace], both parts non-empty words over
    [[a-zA-Z0-9_]], optionally followed by one newline; the pair is then
    those two parts.  On every other text it raises [ValueError] with the
    text in the message. *)
Theorem name_and_namespace_spec (typename : string) :
  (forall n ns, _name_and_namespace_from_type typename = Ok (n, ns) <->
                matches_component_type typename n ns) /\
  (forall e, _name_and_namespace_from_type typename = Raise e ->
             e = ValueError ("Invalid component type name: " ++ typename) /\
             forall n ns, ~ matches_component_type typename n ns).
Proof.
  unfold _name_and_namespace_from_type. split.
  - intros n ns. rewrite <- COMPONENT_TYPE_REGEX_match_spec.
    destruct (COMPONENT_TYPE_REGEX_match typename) as [[n' ns']|];
      split; intros H; inversion H; reflexivity.
  - intros e H.
    destruct (COMPONENT_TYPE_REGEX_match typename) as [[n' ns']|] eqn:E;
      [discriminate|].
    inversion H. split; [reflexivity|]. intros n ns Hm.
    apply COMPONENT_TYPE_REGEX_match_spec in Hm. congruence.
Qed.

(** The newline that [$] tolerates: the text parses to the same pair with
    and without it. *)
Example name_and_namespace_newline :
  _name_and_namespace_from_type ("widget@proj" ++ newline) = Ok ("widget", "proj") /\
  _name_and_namespace_from_type "widget@proj" = Ok ("widget", "proj") /\
  _name_and_namespace_from_type ("widget@proj" ++ newline ++ newline)
  = Raise (ValueError ("Invalid component type name: "
                       ++ "widget@proj" ++ newline ++ newline)).
Proof. repeat split. Qed.

(** X2: whatever [ComponentKey.from_typename] returns is a
    [GlobalComponentKey] whose name and namespace are the two groups of the
    pattern; the directory passed along plays no part in it, and the key's
    own text parses back to the key. *)
Theorem from_typename_result (typename dirpath : string) (k : ComponentKey) :
  from_typename typename dirpath = Ok k ->
  exists n ns,
    k = GlobalComponentKey n ns /\
    matches_component_type typename n ns /\
    (forall d, from_typename typename d = Ok k) /\
    (forall d, from_typename (to_typename k) d = Ok k).
Proof.
  unfold from_typename at 1. intros H.
  destruct (endswith typename ".py") eqn:He.
  - unfold Local_from_type, _name_and_namespace_from_type in H.
    rewrite (endswith_py_no_match _ He) in H. discriminate.
  - unfold Global_from_typename, _name_and_namespace_from_type in H.
    destruct (COMPONENT_TYPE_REGEX_match typename) as [[n ns]|] eqn:Em;
      [|discriminate].
    simpl in H. inversion H; subst k. exists n, ns.
    apply COMPONENT_TYPE_REGEX_match_spec in Em.
    split; [reflexivity|]. split; [exact Em|]. split.
    + intros d. now apply from_typename_global.
    + intros d. destruct Em as (Hn & Hns & _).
      apply from_typename_global.
      * destruct (endswith (to_typename (GlobalComponentKey n ns)) ".py") eqn:He';
          [|reflexivity].
        apply endswith_py_no_match in He'.
        assert (Hm : COMPONENT_TYPE_REGEX_match (to_typename (GlobalComponentKey n ns))
                     = Some (n, ns)).
        { apply COMPONENT_TYPE_REGEX_match_spec. repeat split; auto. }
        congruence.
      * repeat split; auto.
Qed.

Lemma from_typename_result_witness :
  exists n ns,
    GlobalComponentKey "widget" "proj" = GlobalComponentKey n ns /\
    matches_component_type ("widget@proj" ++ newline) n ns /\
    (forall d, from_typename ("widget@proj" ++ newline) d
               = Ok (GlobalComponentKey "widget" "proj")) /\
    (forall d, from_typename (to_typename (GlobalComponentKey "widget" "proj")) d
               = Ok (GlobalComponentKey "widget" "proj")).
Proof.
  apply (from_typename_result ("widget@proj" ++ newline) "proj/defs"
           (GlobalComponentKey "widget" "proj")).
  reflexivity.
Defined.

Lemma append_length (a b : string) :
  String.length (a ++ b) = String.length a + String.length b.
Proof. induction a as [|c a IH]; simpl; [reflexivity | now rewrite IH]. Qed.

Lemma append_cancel_r (a b c : string) : (a ++ c)%string = (b ++ c)%string -> a = b.
Proof.
  revert b. induction a as [|x a IH]; intros [|y b] H; simpl in H.
  - reflexivity.
  - exfalso. apply (f_equal String.length) in H. simpl in H.
    rewrite append_length in H. lia.
  - exfalso. apply (f_equal String.length) in H. simpl in H.
    rewrite append_length in H. lia.
  - inversion H. f_equal. auto.
Qed.

Lemma span_word_word (w : string) :
  string_forall is_word_char w = true -> span_word w = (w, "").
Proof.
  intros H. rewrite <- (append_nil_r w) at 1. now apply span_word_app.
Qed.

(** X3: among keys whose name and namespace are words over
    [[a-zA-Z0-9_]], as every parsed key's are, [to_typename] is injective:
    two different keys, of the same variant or not, never have the same
    text, so the order of enumeration never has to break a tie. *)
Theorem to_typename_injective (k1 k2 : ComponentKey) :
  is_word (key_name k1) = true -> is_word (key_namespace k1) = true ->
  is_word (key_name k2) = true -> is_word (key_namespace k2) = true ->
  k1 <> k2 -> to_typename k1 <> to_typename k2.
Proof.
  intros Hn1 Hs1 Hn2 Hs2 Hne Ht. apply Hne. clear Hne.
  apply is_word_forall in Hn1, Hs1, Hn2, Hs2.
  assert (Hhead : forall n tail, string_forall is_word_char n = true ->
            span_word (n ++ "@" ++ tail) = (n, String "@" tail)).
  { intros n tail Hn. now apply span_word_app. }
  assert (Hsp : forall s d, string_forall is_word_char s = true ->
            span_word (s ++ String " " (String "(" (d ++ ")")))
            = (s, String " " (String "(" (d ++ ")")))).
  { intros s d Hs. now apply span_word_app. }
  destruct k1 as [n1 s1|n1 s1 d1], k2 as [n2 s2|n2 s2 d2];
    cbn [to_typename key_name key_namespace] in *;
    pose proof (f_equal span_word Ht) as E;
    rewrite (Hhead n1 _ Hn1), (Hhead n2 _ Hn2) in E;
    injection E as En Et.
  - now subst.
  - apply (f_equal span_word) in Et.
    rewrite (span_word_word s1 Hs1), (Hsp s2 d2 Hs2) in Et. discriminate.
  - apply (f_equal span_word) in Et.
    rewrite (span_word_word s2 Hs2), (Hsp s1 d1 Hs1) in Et. discriminate.
  - pose proof (f_equal span_word Et) as E2.
    rewrite (Hsp s1 d1 Hs1), (Hsp s2 d2 Hs2) in E2. injection E2 as Es Ed.
    apply append_cancel_r in Ed. now subst.
Qed.

Lemma to_typename_injective_witness :
  GlobalComponentKey "widget" "proj" <> LocalComponentKey "widget" "proj" "proj/defs" /\
  to_typename (GlobalComponentKey "widget" "proj")
  <> to_typename (LocalComponentKey "widget" "proj" "proj/defs").
Proof.
  split; [discriminate|].
  apply (to_typename_injective (GlobalComponentKey "widget" "proj")
           (LocalComponentKey "widget" "proj" "proj/defs"));
    try reflexivity.
  discriminate.
Defined.

(** Without that proviso the text does not tell keys apart: a name may hold
    an [@] when the key is built directly. *)
Example to_typename_tie :
  to_typename (GlobalComponentKey "a@b" "c") = to_typename (GlobalComponentKey "a" "b@c").
Proof. reflexivity. Qed.

(** ** Lookups *)

(** ** The text of a key in a message *)

(** A word is written between single quotes as it is. *)
Lemma repr_char_word (c : ascii) :
  is_word_char c = true -> repr_char "039"%char c = String c EmptyString.
Proof.
  destruct c as [[] [] [] [] [] [] [] []]; vm_compute; intros H;
    solve [reflexivity | discriminate].
Qed.

Lemma contains_char_word (q : ascii) (s : string) :
  is_word_char q = false -> string_forall is_word_char s = true ->
  contains_char q s = false.
Proof.
  intros Hq. induction s as [|c s IH]; simpl; [reflexivity|].
  intros H. apply andb_true_iff in H as [Hc Hs].
  rewrite (IH Hs), orb_false_r. destruct (Ascii.eqb_spec c q); [congruence | reflexivity].
Qed.

Lemma repr_str_word (s : string) :
  is_word s = true -> repr_str s = ("'" ++ s ++ "'")%string.
Proof.
  intros H. apply is_word_forall in H.
  unfold repr_str. rewrite (contains_char_word "039"%char s) by (reflexivity || assumption).
  cbn [andb]. change ("'" ++ s ++ "'")%string with (String "039"%char (s ++ "'")).
  f_equal. induction s as [|c s IH]; [reflexivity|].
  simpl in H. apply andb_true_iff in H as [Hc Hs].
  cbn [repr_body]. rewrite (repr_char_word c Hc), (IH Hs). reflexivity.
Qed.

(** A text with a single quote goes between double quotes; with both kinds
    of quote the single ones are escaped, and so are the backslash and the
    control characters. *)
Example repr_str_quotes :
  repr_str "proj/defs" = "'proj/defs'" /\
  repr_str "it's" = String dquote ("it's" ++ String dquote EmptyString) /\
  repr_str ("a'b" ++ String dquote ("c" ++ newline))
  = ("'a" ++ String "092"%char "'b" ++ String dquote "c"
     ++ String "092"%char "n'")%string /\
  repr_str (String "092"%char (String "001"%char (String "127"%char EmptyString)))
  = ("'" ++ String "092"%char (String "092"%char EmptyString)
     ++ String "092"%char "x01" ++ String "092"%char "x7f'")%string.
Proof. repeat split; reflexivity. Qed.

(** X4: the three lookups of a registry agree on what is stored.
    [has_global] answers [True] exactly for the keys on which [get] returns;
    [get] raises nothing but the [KeyError] of the missing key; and
    [get_global] returns exactly when the key is a [GlobalComponentKey] on
    which [get] returns, with the same descriptor, raising [ValueError] on
    every local key, stored or not. *)
Theorem lookups_agree (r : RemoteComponentRegistry) (k : ComponentKey) :
  (has_global r k = true <-> exists v, get r k = Ok v) /\
  (forall e, get r k = Raise e -> e = KeyError (MissingKey k)) /\
  (forall v, get_global r k = Ok v <-> is_global k = true /\ get r k = Ok v) /\
  (is_global k = false -> exists msg, get_global r k = Raise (ValueError msg)).
Proof.
  unfold has_global, get, get_global, subscript, dict_contains.
  destruct (dict_get ComponentKey_eq_dec k (_components r)) as [v|] eqn:E.
  - split; [split; [intros _; now exists v | reflexivity]|].
    split; [discriminate|]. split.
    + intros v'. destruct (is_global k); simpl; split; intros H.
      * now split.
      * now destruct H.
      * discriminate.
      * destruct H; discriminate.
    + intros ->. simpl. eexists. reflexivity.
  - split; [split; [discriminate | intros [v H]; discriminate]|].
    split; [intros e H; now inversion H|]. split.
    + intros v'. destruct (is_global k); simpl; split; intros H;
        try discriminate; destruct H; discriminate.
    + intros ->. simpl. eexists. reflexivity.
Qed.

(** ** Enumeration of the global keys *)

Lemma filter_perm (A : Type) (f : A -> bool) (l l' : list A) :
  Permutation l l' -> Permutation (filter f l) (filter f l').
Proof.
  induction 1 as [|x l l' _ IH|x y l|l l' l'' _ IH1 _ IH2]; simpl.
  - constructor.
  - destruct (f x); [now constructor | assumption].
  - destruct (f x), (f y); try reflexivity. apply perm_swap.
  - now transitivity (filter f l').
Qed.

(** X5: [global_keys] yields the stored keys that are global, each as often
    as the mapping holds it, no local key among them, in ascending order of
    their text. *)
Theorem global_keys_sorted_global (r : RemoteComponentRegistry) :
  Forall (fun k => is_global k = true) (global_keys r) /\
  Permutation (global_keys r) (filter is_global (dict_keys (_components r))) /\
  StronglySorted (le_by to_typename) (global_keys r).
Proof.
  unfold global_keys. split; [|split].
  - apply Forall_forall. intros k Hk. now apply filter_In in Hk.
  - apply filter_perm, sorted_by_perm.
  - apply filter_sorted, sorted_by_sorted.
Qed.

(** ** The translators *)

Lemma localize_global_inj (d : string) (k k' : ComponentKey) :
  is_global k = true -> is_global k' = true ->
  localize d k = localize d k' -> k = k'.
Proof.
  destruct k, k'; simpl; try discriminate. intros _ _ H.
  unfold localize in H. simpl in H. now inversion H.
Qed.

Lemma dict_set_localize (d : string) (k : ComponentKey) (v : RemoteComponentType)
    (data : type_mapping) :
  is_global k = true ->
  Forall (fun kv => is_global (fst kv) = true) data ->
  dict_set ComponentKey_eq_dec (localize d k) v (map (localize_entry d) data)
  = map (localize_entry d) (dict_set ComponentKey_eq_dec k v data).
Proof.
  intros Hk. induction 1 as [|[k' v'] data Hk' _ IH]; [reflexivity|].
  cbn [fst] in Hk'. cbn [map dict_set]. unfold localize_entry at 1. cbn [fst snd].
  destruct (ComponentKey_eq_dec k k') as [->|Hne].
  - destruct (ComponentKey_eq_dec (localize d k') (localize d k')); [|congruence].
    reflexivity.
  - destruct (ComponentKey_eq_dec (localize d k) (localize d k')) as [E|_].
    + elim Hne. now apply (localize_global_inj d).
    + cbn [map]. now rewrite IH.
Qed.

Lemma dict_set_all_global (k : ComponentKey) (v : RemoteComponentType)
    (data : type_mapping) :
  is_global k = true ->
  Forall (fun kv => is_global (fst kv) = true) data ->
  Forall (fun kv => is_global (fst kv) = true) (dict_set ComponentKey_eq_dec k v data).
Proof.
  intros Hk. induction 1 as [|[k' v'] data Hk' Hd IH]; simpl.
  - now repeat constructor.
  - destruct (ComponentKey_eq_dec k k'); constructor; auto.
Qed.

Lemma Global_from_typename_localize (typename d : string) :
  Local_from_type typename d =
  match Global_from_typename typename with
  | Ok k => Ok (localize d k)
  | Raise e => Raise e
  end.
Proof.
  unfold Local_from_type, Global_from_typename.
  destruct (_name_and_namespace_from_type typename) as [[n ns]|e]; reflexivity.
Qed.

Lemma Global_from_typename_global (typename : string) (k : ComponentKey) :
  Global_from_typename typename = Ok k -> is_global k = true /\ well_named k.
Proof.
  unfold Global_from_typename, _name_and_namespace_from_type.
  destruct (COMPONENT_TYPE_REGEX_match typename) as [[n ns]|] eqn:E; [|discriminate].
  simpl. intros H. inversion H; subst.
  apply COMPONENT_TYPE_REGEX_match_spec in E as (Hn & Hns & _).
  repeat split; assumption.
Qed.

Lemma translate_items_localize (d : string) (items : list (string * json))
    (data : type_mapping) :
  Forall (fun kv => is_global (fst kv) = true) data ->
  translate_items (fun t => Local_from_type t d) items (map (localize_entry d) data)
  = match translate_items Global_from_typename items data with
    | Ok m => Ok (map (localize_entry d) m)
    | Raise e => Raise e
    end.
Proof.
  revert data. induction items as [|[t meta] items IH]; intros data Hd; simpl.
  - reflexivity.
  - destruct (RemoteComponentType_of_kwargs meta) as [v|e]; simpl; [|reflexivity].
    rewrite Global_from_typename_localize.
    destruct (Global_from_typename t) as [k|e] eqn:Ek; simpl; [|reflexivity].
    apply Global_from_typename_global in Ek as [Hk _].
    rewrite dict_set_localize by assumption.
    apply IH. now apply dict_set_all_global.
Qed.

(** X6: the two translators do the same work.  On every raw value the local
    translator raises what the global one raises, and where the global one
    returns a mapping the local one returns that mapping, entry for entry
    and in the same order, with each key made local to the directory. *)
Theorem local_translator_is_global_relabelled (raw_data : json) (dirpath : Path) :
  _get_local_type_mapping_from_raw_data raw_data dirpath =
  match _get_remote_type_mapping_from_raw_data raw_data with
  | Ok m => Ok (map (localize_entry (str_of_path dirpath)) m)
  | Raise e => Raise e
  end.
Proof.
  unfold _get_local_type_mapping_from_raw_data, _get_remote_type_mapping_from_raw_data.
  destruct (json_items raw_data) as [items|e]; simpl; [|reflexivity].
  apply (translate_items_localize (str_of_path dirpath) items []). constructor.
Qed.

(** What [translate_items] keeps: no key twice, and every key either there
    before or parsed from a type name of the items. *)
Lemma translate_items_keys (mk : string -> result ComponentKey)
    (items : list (string * json)) (data m : type_mapping) :
  translate_items mk items data = Ok m ->
  (NoDup (dict_keys data) -> NoDup (dict_keys m)) /\
  (forall k, In k (dict_keys m) <->
             In k (dict_keys data) \/
             exists t meta, In (t, meta) items /\ mk t = Ok k).
Proof.
  revert data. induction items as [|[t meta] items IH]; intros data H; simpl in H.
  - inversion H; subst. split; [auto|]. intros k. split; [auto|].
    intros [Hk|(t & meta & [] & _)]. exact Hk.
  - destruct (RemoteComponentType_of_kwargs meta) as [v|e]; simpl in H; [|discriminate].
    destruct (mk t) as [k0|e] eqn:Ek; simpl in H; [|discriminate].
    destruct (IH _ H) as [Hnd Hin]. split.
    + intros Hd. apply Hnd. now apply dict_set_NoDup.
    + intros k. rewrite Hin, dict_keys_set. split.
      * intros [[->|Hk]|(t' & meta' & Hi & Hm)].
        -- right. exists t, meta. split; [now left | assumption].
        -- now left.
        -- right. exists t', meta'. split; [now right | assumption].
      * intros [Hk|(t' & meta' & [Heq|Hi] & Hm)].
        -- left. now right.
        -- inversion Heq; subst. left. left. congruence.
        -- right. exists t', meta'. auto.
Qed.

(** X7: a mapping returned by [_get_remote_type_mapping_from_raw_data] is a
    well-formed mapping: it holds no key twice, its keys are exactly the
    keys parsed from the type names of the raw object, and each of them is a
    [GlobalComponentKey] whose name and namespace are words. *)
Theorem remote_mapping_keys (items : list (string * json)) (m : type_mapping) :
  _get_remote_type_mapping_from_raw_data (JObj items) = Ok m ->
  NoDup (dict_keys m) /\
  (forall k, In k (dict_keys m) <->
             exists t meta, In (t, meta) items /\ Global_from_typename t = Ok k) /\
  Forall (fun k => is_global k = true /\ well_named k) (dict_keys m).
Proof.
  unfold _get_remote_type_mapping_from_raw_data. simpl. intros H.
  destruct (translate_items_keys _ _ _ _ H) as [Hnd Hin].
  assert (Hk : forall k, In k (dict_keys m) <->
             exists t meta, In (t, meta) items /\ Global_from_typename t = Ok k).
  { intros k. rewrite Hin. simpl. tauto. }
  split; [apply Hnd; constructor|]. split; [exact Hk|].
  apply Forall_forall. intros k Hi. apply Hk in Hi as (t & meta & _ & Ht).
  now apply Global_from_typename_global in Ht.
Qed.

Lemma remote_mapping_keys_witness :
  NoDup (dict_keys [(GlobalComponentKey "Foo" "ns", example_descriptor "Foo" "p")]) /\
  Forall (fun k => is_global k = true /\ well_named k)
         (dict_keys [(GlobalComponentKey "Foo" "ns", example_descriptor "Foo" "p")]).
Proof.
  destruct (remote_mapping_keys [("Foo@ns", example_metadata "Foo" "p")]
              [(GlobalComponentKey "Foo" "ns", example_descriptor "Foo" "p")])
    as (H1 & _ & H3).
  - reflexivity.
  - split; assumption.
Defined.

Lemma translate_items_app (mk : string -> result ComponentKey)
    (l1 l2 : list (string * json)) (data : type_mapping) :
  translate_items mk (l1 ++ l2) data =
  rbind (translate_items mk l1 data) (fun d => translate_items mk l2 d).
Proof.
  revert data. induction l1 as [|[t meta] l1 IH]; intros data; simpl; [reflexivity|].
  destruct (RemoteComponentType_of_kwargs meta) as [v|e]; simpl; [|reflexivity].
  destruct (mk t) as [k|e]; simpl; [apply IH | reflexivity].
Qed.

Lemma translate_items_keeps (mk : string -> result ComponentKey)
    (items : list (string * json)) (data m : type_mapping) (k : ComponentKey) :
  translate_items mk items data = Ok m ->
  (forall t meta, In (t, meta) items -> mk t <> Ok k) ->
  dict_get ComponentKey_eq_dec k m = dict_get ComponentKey_eq_dec k data.
Proof.
  revert data. induction items as [|[t meta] items IH]; intros data H Hk; simpl in H.
  - now inversion H.
  - destruct (RemoteComponentType_of_kwargs meta) as [v|e]; simpl in H; [|discriminate].
    destruct (mk t) as [k0|e] eqn:Ek; simpl in H; [|discriminate].
    rewrite (IH _ H) by (intros t' meta' Hi; apply (Hk t' meta'); now right).
    rewrite dict_get_set. destruct (ComponentKey_eq_dec k k0) as [->|]; [|reflexivity].
    elim (Hk t meta); [now left | assumption].
Qed.

(** X8: when two type names of a raw listing parse to the same key, as a
    name and the same name followed by a newline do, the mapping holds the
    key once, with the descriptor of the last of them: a registry built from
    the mapping returns, for the key of an entry, that entry's descriptor
    unless a later entry parses to the same key. *)
Theorem last_entry_wins (before after : list (string * json)) (typename : string)
    (metadata : json) (m : type_mapping) (k : ComponentKey) :
  _get_remote_type_mapping_from_raw_data
    (JObj (before ++ (typename, metadata) :: after)) = Ok m ->
  Global_from_typename typename = Ok k ->
  (forall t meta, In (t, meta) after -> Global_from_typename t <> Ok k) ->
  exists v, RemoteComponentType_of_kwargs metadata = Ok v /\
            get (new_registry m) k = Ok v.
Proof.
  unfold _get_remote_type_mapping_from_raw_data. simpl. intros H Hk Hafter.
  rewrite translate_items_app in H.
  destruct (translate_items Global_from_typename before []) as [d|e]; simpl in H;
    [|discriminate].
  destruct (RemoteComponentType_of_kwargs metadata) as [v|e]; simpl in H; [|discriminate].
  rewrite Hk in H. simpl in H. exists v. split; [reflexivity|].
  unfold get, subscript, new_registry. cbn [_components].
  rewrite (translate_items_keeps _ _ _ _ _ H Hafter), dict_get_set.
  destruct (ComponentKey_eq_dec k k); [reflexivity | congruence].
Qed.

Lemma last_entry_wins_witness :
  _get_remote_type_mapping_from_raw_data (JObj twin_listing)
  = Ok [(GlobalComponentKey "Foo" "ns", example_descriptor "Foo" "q")] /\
  exists v, RemoteComponentType_of_kwargs (example_metadata "Foo" "q") = Ok v /\
            get (new_registry [(GlobalComponentKey "Foo" "ns",
                                example_descriptor "Foo" "q")])
                (GlobalComponentKey "Foo" "ns") = Ok v.
Proof.
  split; [reflexivity|].
  apply (last_entry_wins [("Foo@ns", example_metadata "Foo" "p")] []
           ("Foo@ns" ++ newline)%string (example_metadata "Foo" "q")
           [(GlobalComponentKey "Foo" "ns", example_descriptor "Foo" "q")]
           (GlobalComponentKey "Foo" "ns")).
  - reflexivity.
  - reflexivity.
  - intros t meta [].
Defined.

(** X9: the global translator returns exactly when every entry of the raw
    object is acceptable.  Otherwise it raises for the first entry that is
    not, entries being taken in order and an entry's descriptor before its
    type name: [TypeError] when the metadata does not build a descriptor,
    else the [ValueError] naming the type name that does not parse.  On a
    raw value that is no object it raises [AttributeError]. *)
Theorem translator_first_failure (raw_data : json) :
  match raw_data with
  | JObj items =>
      (is_ok (_get_remote_type_mapping_from_raw_data raw_data) = true <->
       Forall entry_ok items) /\
      (forall e, _get_remote_type_mapping_from_raw_data raw_data = Raise e ->
       exists good t meta rest,
         items = good ++ (t, meta) :: rest /\ Forall entry_ok good /\
         match RemoteComponentType_of_kwargs meta with
         | Raise _ => e = TypeError
         | Ok _ => e = ValueError ("Invalid component type name: " ++ t) /\
                   is_ok (Global_from_typename t) = false
         end)
  | _ => _get_remote_type_mapping_from_raw_data raw_data = Raise AttributeError
  end.
Proof.
  destruct raw_data as [| | | | | |items]; try reflexivity.
  unfold _get_remote_type_mapping_from_raw_data. simpl.
  generalize (@nil (ComponentKey * RemoteComponentType)) as data.
  induction items as [|[t meta] items IH]; intros data; simpl.
  - split; [split; [constructor | reflexivity] | discriminate].
  - destruct (RemoteComponentType_of_kwargs meta) as [v|e0] eqn:Ev; simpl.
    + destruct (Global_from_typename t) as [k|e1] eqn:Ek; simpl.
      * destruct (IH (dict_set ComponentKey_eq_dec k v data)) as [Hok Hbad]. split.
        -- rewrite Hok. split; intros H.
           ++ constructor; [|assumption]. unfold entry_ok. simpl. now rewrite Ev, Ek.
           ++ now inversion H.
        -- intros e He. destruct (Hbad e He) as (good & t' & meta' & rest & -> & Hg & Hm).
           exists ((t, meta) :: good), t', meta', rest. split; [reflexivity|].
           split; [|assumption]. constructor; [|assumption].
           unfold entry_ok. simpl. now rewrite Ev, Ek.
      * split.
        -- split; [discriminate|]. intros H. inversion H as [|? ? [_ Hn] _]; subst.
           simpl in Hn. rewrite Ek in Hn. discriminate.
        -- intros e He. inversion He; subst. exists [], t, meta, items.
           split; [reflexivity|]. split; [constructor|]. rewrite Ev.
           split; [|now rewrite Ek].
           unfold Global_from_typename, _name_and_namespace_from_type in Ek.
           destruct (COMPONENT_TYPE_REGEX_match t) as [[n ns]|]; simpl in Ek;
             [discriminate | now inversion Ek].
    + split.
      * split; [discriminate|]. intros H. inversion H as [|? ? [Hn _] _]; subst.
        simpl in Hn. rewrite Ev in Hn. discriminate.
      * intros e He. inversion He; subst. exists [], t, meta, items.
        split; [reflexivity|]. split; [constructor|]. rewrite Ev.
        now apply RemoteComponentType_of_kwargs_raises in Ev.
Qed.


(** ** Sorting and selecting *)

Section SortedSelect.

Variable A : Type.
Variable f : A -> string.
Variable p : A -> bool.

Lemma insert_by_head (x : A) (l : list A) :
  Forall (fun z => String.leb (f x) (f z) = true) l -> insert_by f x l = x :: l.
Proof.
  destruct l as [|y l]; simpl; [reflexivity|].
  intros H. inversion H as [|? ? Hy _]; subst. now rewrite Hy.
Qed.

Lemma filter_insert_by (x : A) (l : list A) :
  StronglySorted (le_by f) l ->
  filter p (insert_by f x l)
  = if p x then insert_by f x (filter p l) else filter p l.
Proof.
  induction 1 as [|y l Hs IH Hall]; simpl.
  - destruct (p x); reflexivity.
  - destruct (String.leb (f x) (f y)) eqn:E; simpl.
    + destruct (p x) eqn:Px, (p y) eqn:Py; simpl; rewrite ?E; try reflexivity.
      symmetry. apply insert_by_head. apply Forall_forall. intros z Hz.
      apply filter_In in Hz as [Hz _]. rewrite Forall_forall in Hall.
      exact (leb_trans _ _ _ E (Hall z Hz)).
    + rewrite IH. destruct (p x), (p y); simpl; rewrite ?E; reflexivity.
Qed.

(** Selecting from a sorted list is sorting the selection. *)
Lemma filter_sorted_by (l : list A) :
  filter p (sorted_by f l) = sorted_by f (filter p l).
Proof.
  induction l as [|x l IH]; simpl; [reflexivity|].
  rewrite filter_insert_by by apply sorted_by_sorted.
  rewrite IH. destruct (p x); reflexivity.
Qed.

End SortedSelect.

Section DictSelect.

Variables K V : Type.
Variable K_eq_dec : forall a b : K, {a = b} + {a <> b}.
Variable p : K -> bool.

Lemma dict_keys_set_filter (k : K) (v : V) (d : dict K V) :
  p k = false ->
  filter p (dict_keys (dict_set K_eq_dec k v d)) = filter p (dict_keys d).
Proof.
  intros Hk. unfold dict_keys. induction d as [|[k0 v0] d IH]; simpl.
  - now rewrite Hk.
  - destruct (K_eq_dec k k0); simpl; [reflexivity|]. now rewrite IH.
Qed.

Lemma dict_keys_update_filter (d other : dict K V) :
  Forall (fun k => p k = false) (dict_keys other) ->
  filter p (dict_keys (dict_update K_eq_dec d other)) = filter p (dict_keys d).
Proof.
  unfold dict_update. revert d.
  induction other as [|[k v] other IH]; simpl; intros d H; [reflexivity|].
  inversion H as [|? ? Hk Hrest]; subst.
  rewrite IH by assumption. now apply dict_keys_set_filter.
Qed.

End DictSelect.

Lemma pair_with_global_ext (r r' : RemoteComponentRegistry) (keys : list ComponentKey) :
  (forall k, get_global r k = get_global r' k) ->
  pair_with_global r keys = pair_with_global r' keys.
Proof.
  intros H. induction keys as [|k keys IH]; simpl; [reflexivity|].
  now rewrite H, IH.
Qed.

Lemma local_to_not_global (Q : Path -> Prop) (k : ComponentKey) :
  local_to Q k -> is_global k = false.
Proof. intros (n & ns & p & -> & _). reflexivity. Qed.

(** ** The global listing *)

Section ConstructionMore.

Variable Key : Type.
Variable Key_eq_dec : forall a b : Key, {a = b} + {a <> b}.
Variable key_truthy : Key -> bool.
Variable json_loads : string -> option json.
Variable json_dumps : json -> string.
Variable set_order : list Path -> list Path.
Variable ctx : DgContext Key.

Local Abbreviation key_of := (get_cache_key_for_local_components ctx).
Local Abbreviation entry := (cached_entry Key_eq_dec json_loads ctx).
Local Abbreviation read := (read_cached Key_eq_dec json_loads ctx).
Local Abbreviation read_phase paths :=
  (if has_cache ctx
   then read paths ([], nodup string_dec paths)
   else ret ([], nodup string_dec paths)).
Local Abbreviation retrieve :=
  (_retrieve_local_component_types Key_eq_dec key_truthy json_loads json_dumps
     set_order ctx).
Local Abbreviation local_args fetch :=
  ("list" :: "local-component-types" :: map str_of_path (set_order fetch)).
Local Abbreviation global :=
  (global_component_data Key_eq_dec key_truthy json_loads ctx).
Local Abbreviation construct :=
  (from_dg_context Key_eq_dec key_truthy json_loads json_dumps set_order ctx).
Local Abbreviation lock_events :=
  (if use_dg_managed_environment ctx then [EnsureUvLock Key] else []).
Local Abbreviation registry_key := (get_cache_key ctx "component_registry_data").
Local Abbreviation global_args := ["list"; "component-types"].

(** What translating the text of the global listing gives. *)
Local Abbreviation translated raw :=
  (match json_loads raw with
   | None => Raise JSONDecodeError
   | Some j =>
       match _get_remote_type_mapping_from_raw_data j with
       | Ok m => Ok (dict_update ComponentKey_eq_dec [] m)
       | Raise e => Raise e
       end
   end).

(** Without a usable entry the global listing is asked of the external
    process. *)
Lemma global_miss (c : Cache Key) :
  has_cache ctx = true ->
  str_truthy (dict_get Key_eq_dec registry_key c) = false ->
  global c =
  match external_components_command ctx global_args with
  | Raise e =>
      {| events := [CacheGet registry_key; ExternalCommand Key global_args];
         cache_after := c; outcome := Raise e |}
  | Ok raw =>
      if key_truthy registry_key && is_valid_json json_loads raw
      then {| events := [CacheGet registry_key; ExternalCommand Key global_args;
                         CacheSet registry_key raw];
              cache_after := dict_set Key_eq_dec registry_key raw c;
              outcome := translated raw |}
      else {| events := [CacheGet registry_key; ExternalCommand Key global_args];
              cache_after := c; outcome := translated raw |}
  end.
Proof.
  intros Hc Hm.
  unfold global_component_data, bind, cache_get, cache_set, external, ret, loads, lift.
  rewrite Hc. cbn [outcome events cache_after fst snd andb].
  destruct (dict_get Key_eq_dec registry_key c) as [[|ch s]|]; try discriminate;
    cbn [outcome events cache_after fst snd andb];
    (destruct (external_components_command ctx global_args) as [raw|e];
     cbn [outcome events cache_after]; [|reflexivity]);
    destruct (key_truthy registry_key && is_valid_json json_loads raw);
    cbn [outcome events cache_after app];
    destruct (json_loads raw) as [j|]; cbn [outcome events cache_after app];
    try reflexivity;
    destruct (_get_remote_type_mapping_from_raw_data j); reflexivity.
Qed.

Lemma global_no_cache (c : Cache Key) :
  has_cache ctx = false ->
  global c =
  match external_components_command ctx global_args with
  | Raise e => {| events := [ExternalCommand Key global_args];
                  cache_after := c; outcome := Raise e |}
  | Ok raw => {| events := [ExternalCommand Key global_args];
                 cache_after := c; outcome := translated raw |}
  end.
Proof.
  intros Hc.
  unfold global_component_data, bind, cache_get, cache_set, external, ret, loads, lift.
  rewrite Hc. cbn [outcome events cache_after fst snd andb].
  destruct (external_components_command ctx global_args) as [raw|e];
    cbn [outcome events cache_after]; [|reflexivity].
  destruct (json_loads raw) as [j|]; cbn [outcome events cache_after app];
    try reflexivity.
  destruct (_get_remote_type_mapping_from_raw_data j); reflexivity.
Qed.

(** X10: with a cache that has no usable entry for the global listing, the
    external process is invoked once with [list component-types], and its
    answer is written under the registry key exactly when the key is true
    and the answer is valid JSON.  The write comes before the translation:
    an answer that is valid JSON but does not translate is cached and the
    construction then raises; an answer that is not JSON is never cached
    and raises [JSONDecodeError]. *)
Theorem global_miss_caches_valid_json (c : Cache Key) (raw : string) :
  has_cache ctx = true ->
  str_truthy (dict_get Key_eq_dec registry_key c) = false ->
  external_components_command ctx global_args = Ok raw ->
  external_calls (events (global c)) = [global_args] /\
  cache_writes (events (global c))
  = (if key_truthy registry_key && is_valid_json json_loads raw
     then [(registry_key, raw)] else []) /\
  outcome (global c) = translated raw /\
  (json_loads raw = None ->
   cache_writes (events (global c)) = [] /\ outcome (global c) = Raise JSONDecodeError).
Proof.
  intros Hc Hm He. rewrite (global_miss c Hc Hm), He.
  assert (Hn : json_loads raw = None ->
               key_truthy registry_key && is_valid_json json_loads raw = false).
  { intros Hl. unfold is_valid_json. rewrite Hl. apply andb_false_r. }
  destruct (key_truthy registry_key && is_valid_json json_loads raw);
    cbn [events outcome];
    (split; [reflexivity|]); (split; [reflexivity|]); (split; [reflexivity|]);
    intros Hl.
  - discriminate (Hn Hl).
  - split; [reflexivity | now rewrite Hl].
Qed.

(** X11: once the global listing has been obtained, the cache left behind
    serves it: with a true registry key, obtaining the listing again from
    that cache invokes no external process, writes nothing and returns the
    same mapping.  The proviso on [json.loads] is that it rejects the empty
    text, as Python's does. *)
Theorem global_listing_served_from_cache (c : Cache Key) (gd : type_mapping) :
  has_cache ctx = true ->
  key_truthy registry_key = true ->
  json_loads "" = None ->
  outcome (global c) = Ok gd ->
  external_calls (events (global (cache_after (global c)))) = [] /\
  cache_writes (events (global (cache_after (global c)))) = [] /\
  cache_after (global (cache_after (global c))) = cache_after (global c) /\
  outcome (global (cache_after (global c))) = Ok gd.
Proof.
  intros Hc Hk Hempty Ho.
  destruct (str_truthy (dict_get Key_eq_dec registry_key c)) eqn:Hm.
  - destruct (dict_get Key_eq_dec registry_key c) as [[|ch s]|] eqn:Hg;
      try discriminate.
    rewrite (global_hit _ Key_eq_dec key_truthy json_loads ctx c ch s Hc Hg) in Ho |- *.
    cbn [cache_after].
    rewrite (global_hit _ Key_eq_dec key_truthy json_loads ctx c ch s Hc Hg).
    cbn [events cache_after outcome] in *. auto.
  - rewrite (global_miss c Hc Hm) in Ho |- *.
    destruct (external_components_command ctx global_args) as [raw|e];
      [|discriminate].
    rewrite Hk in Ho |- *. cbn [andb] in Ho |- *. unfold is_valid_json in Ho |- *.
    destruct (json_loads raw) as [j|] eqn:Hl; [|discriminate].
    cbn [cache_after outcome] in Ho |- *.
    destruct raw as [|ch s]; [congruence|].
    assert (Hg : dict_get Key_eq_dec registry_key
                   (dict_set Key_eq_dec registry_key (String ch s) c)
                 = Some (String ch s)).
    { rewrite dict_get_set. destruct (Key_eq_dec registry_key registry_key);
        [reflexivity | congruence]. }
    rewrite (global_hit _ Key_eq_dec key_truthy json_loads ctx _ ch s Hc Hg).
    cbn [events cache_after outcome]. rewrite Hl. auto.
Qed.

(** X12: without a cache a construction does not touch the cache at all.
    Its events are the lock, when the environment is managed, the request
    for the global listing and, when that was translated and directories
    were given, one request for all of them; the cache is left as it
    was. *)
Theorem no_cache_run (dirs : option (list Path)) (c : Cache Key) :
  has_cache ctx = false ->
  cache_after (construct dirs c) = c /\
  events (construct dirs c)
  = lock_events ++ ExternalCommand Key global_args
      :: match outcome (global c), dirs with
         | Ok _, Some (d :: ds) =>
             [ExternalCommand Key (local_args (nodup string_dec (d :: ds)))]
         | _, _ => []
         end.
Proof.
  intros Hc. rewrite from_dg_context_run, (global_no_cache c Hc).
  assert (Hr : forall d ds c',
            events (retrieve (d :: ds) c')
            = [ExternalCommand Key (local_args (nodup string_dec (d :: ds)))] /\
            cache_after (retrieve (d :: ds) c') = c').
  { intros d ds c'.
    assert (Ho : outcome (read_phase (d :: ds) c') = Ok ([], nodup string_dec (d :: ds)))
      by now rewrite Hc.
    rewrite (retrieve_read_ok _ Key_eq_dec key_truthy json_loads json_dumps set_order
               ctx _ _ _ Ho).
    cbn [fst snd]. rewrite Hc. cbn [events app].
    destruct (nodup string_dec (d :: ds)) as [|p fetch] eqn:Hn.
    - exfalso. assert (Hin : In d (nodup string_dec (d :: ds)))
        by (apply nodup_In; now left).
      now rewrite Hn in Hin.
    - cbv zeta.
      destruct (external_components_command ctx _) as [raw|e];
        [destruct (json_loads raw) as [j|];
         [destruct (translate_fetched j _ []) as [data|e]|]|];
        cbn [events cache_after app]; auto. }
  destruct (external_components_command ctx global_args) as [raw|e];
    cbn [outcome events cache_after]; [|auto].
  destruct (translated raw) as [gd|e]; [|auto].
  destruct dirs as [[|d ds]|]; cbn [events cache_after]; auto.
  destruct (Hr d ds c) as [He Hca]. rewrite He, Hca. auto.
Qed.

(** ** Directories served from the cache *)

Lemma read_all_hits (c : Cache Key) (paths : list Path) (ms : list type_mapping) :
  Forall2 (fun p m => entry c p = Some (Ok m)) paths ms ->
  NoDup paths ->
  forall st, incl paths (snd st) ->
  exists f, outcome (read paths st c)
            = Ok (fold_left (dict_update ComponentKey_eq_dec) ms (fst st), f).
Proof.
  induction 1 as [|p m paths ms Hp _ IH]; intros Hnd st Hin.
  - exists (snd st). simpl. now destruct st.
  - inversion Hnd as [|? ? Hnot Hnd']; subst.
    rewrite (read_cached_hit _ Key_eq_dec json_loads ctx p paths st c _ Hp).
    destruct (set_remove p (snd st)) as [f|e] eqn:Er.
    + destruct (IH Hnd' (dict_update ComponentKey_eq_dec (fst st) m, f)) as [f' Hf'].
      * intros q Hq. simpl. apply (set_remove_keeps p q (snd st) f Er).
        -- apply Hin. now right.
        -- intros ->. contradiction.
      * exists f'. exact Hf'.
    + apply set_remove_raise in Er as [Hn _]. elim Hn. apply Hin. now left.
Qed.

(** X13: with a cache in which every requested directory, each listed once,
    has a valid entry, the retrieval is served from the cache alone: no
    external process is invoked, nothing is written, and the result is the
    cached mappings merged in the order of the directories. *)
Theorem all_cached_retrieval (paths : list Path) (ms : list type_mapping)
    (c : Cache Key) :
  has_cache ctx = true ->
  NoDup paths ->
  Forall2 (fun p m => entry c p = Some (Ok m)) paths ms ->
  outcome (retrieve paths c)
  = Ok (fold_left (dict_update ComponentKey_eq_dec) ms []) /\
  external_calls (events (retrieve paths c)) = [] /\
  cache_writes (events (retrieve paths c)) = [] /\
  cache_after (retrieve paths c) = c.
Proof.
  intros Hc Hnd Hall.
  destruct (read_all_hits c paths ms Hall Hnd ([], nodup string_dec paths)) as [f Hf].
  { intros q Hq. simpl. now apply nodup_In. }
  assert (Ho : outcome (read_phase paths c)
               = Ok (fold_left (dict_update ComponentKey_eq_dec) ms [], f))
    by (rewrite Hc; exact Hf).
  assert (Hempty : f = []).
  { pose proof (read_phase_fetch _ Key_eq_dec json_loads ctx paths c _ Ho) as Hs.
    simpl in Hs. rewrite Hs. unfold paths_to_fetch. rewrite Hc.
    destruct (filter (fun p => negb (local_hit Key_eq_dec ctx c p))
                (nodup string_dec paths)) as [|q l] eqn:Hfil; [reflexivity|].
    assert (Hq : In q (filter (fun p => negb (local_hit Key_eq_dec ctx c p))
                         (nodup string_dec paths)))
      by (rewrite Hfil; now left).
    apply filter_In in Hq as [Hq Hmiss]. apply nodup_In in Hq.
    apply negb_true_iff, (entry_none_hit _ Key_eq_dec json_loads ctx c q) in Hmiss.
    clear - Hall Hq Hmiss. induction Hall as [|p m paths ms Hp _ IH];
      [contradiction|].
    destruct Hq as [->|Hq]; [congruence | auto]. }
  subst f.
  destruct (read_phase_quiet _ Key_eq_dec json_loads ctx paths c) as (_ & Hq & Hw).
  rewrite (retrieve_read_ok _ Key_eq_dec key_truthy json_loads json_dumps set_order
             ctx _ _ _ Ho).
  cbn [snd fst events outcome cache_after]. auto.
Qed.

(** ** The keys of what a retrieval returns *)

Section RetrievedKeys.

Variable Q : Path -> Prop.

Lemma local_translator_keys (j : json) (p : Path) (m : type_mapping) :
  Q p -> _get_local_type_mapping_from_raw_data j p = Ok m ->
  NoDup (dict_keys m) /\ Forall (local_to Q) (dict_keys m).
Proof.
  intros Hq. unfold _get_local_type_mapping_from_raw_data.
  destruct (json_items j) as [items|e]; simpl; [|discriminate]. intros H.
  destruct (translate_items_keys _ _ _ _ H) as [Hnd Hin].
  split; [apply Hnd; constructor|].
  apply Forall_forall. intros k Hk. apply Hin in Hk as [[]|(t & meta & _ & Ht)].
  unfold Local_from_type, _name_and_namespace_from_type in Ht.
  destruct (COMPONENT_TYPE_REGEX_match t) as [[n ns]|] eqn:Em; [|discriminate].
  simpl in Ht. inversion Ht; subst.
  apply COMPONENT_TYPE_REGEX_match_spec in Em as (Hn & Hns & _).
  exists n, ns, p. auto.
Qed.

Lemma dict_update_keys_Forall (P : ComponentKey -> Prop) (d o : type_mapping) :
  Forall P (dict_keys d) -> Forall P (dict_keys o) ->
  Forall P (dict_keys (dict_update ComponentKey_eq_dec d o)).
Proof.
  rewrite !Forall_forall. intros Hd Ho k Hk.
  apply dict_keys_update in Hk as [Hk|Hk]; auto.
Qed.

Lemma entry_translation (c : Cache Key) (p : Path) (m : type_mapping) :
  entry c p = Some (Ok m) ->
  exists j, _get_local_type_mapping_from_raw_data j p = Ok m.
Proof.
  unfold cached_entry.
  destruct (dict_get Key_eq_dec (key_of p) c) as [[|ch s]|]; try discriminate.
  destruct (json_loads (String ch s)) as [j|]; [|discriminate].
  intros H. inversion H. now exists j.
Qed.

Lemma read_cached_keys (c : Cache Key) (paths : list Path)
    (st st' : type_mapping * list Path) :
  Forall Q paths ->
  Forall (local_to Q) (dict_keys (fst st)) -> NoDup (dict_keys (fst st)) ->
  outcome (read paths st c) = Ok st' ->
  Forall (local_to Q) (dict_keys (fst st')) /\ NoDup (dict_keys (fst st')).
Proof.
  intros HQ. revert st. induction HQ as [|p paths Hp _ IH]; intros st Hl Hnd Ho.
  - simpl in Ho. inversion Ho; subst. auto.
  - destruct (entry c p) as [[m|e]|] eqn:Ep.
    + rewrite (read_cached_hit _ Key_eq_dec json_loads ctx p paths st c _ Ep) in Ho.
      destruct (set_remove p (snd st)) as [f|e]; [|discriminate].
      destruct (entry_translation c p m Ep) as [j Hj].
      destruct (local_translator_keys j p m Hp Hj) as [Hmn Hml].
      apply (IH (dict_update ComponentKey_eq_dec (fst st) m, f)); simpl;
        [now apply dict_update_keys_Forall | now apply dict_update_NoDup | exact Ho].
    + rewrite (read_cached_hit _ Key_eq_dec json_loads ctx p paths st c _ Ep) in Ho.
      discriminate.
    + rewrite (read_cached_miss _ Key_eq_dec json_loads ctx p paths st c Ep) in Ho.
      now apply (IH st).
Qed.

Lemma translate_fetched_keys (j : json) (order : list Path) (data data' : type_mapping) :
  Forall Q order ->
  Forall (local_to Q) (dict_keys data) -> NoDup (dict_keys data) ->
  translate_fetched j order data = Ok data' ->
  Forall (local_to Q) (dict_keys data') /\ NoDup (dict_keys data').
Proof.
  intros HQ. revert data. induction HQ as [|p order Hp _ IH]; intros data Hl Hnd H;
    simpl in H.
  - inversion H; subst. auto.
  - destruct (_get_local_type_mapping_from_raw_data j p) as [m|e] eqn:Hm;
      simpl in H; [|discriminate].
    destruct (local_translator_keys j p m Hp Hm) as [Hmn Hml].
    apply (IH (dict_update ComponentKey_eq_dec data m));
      [now apply dict_update_keys_Forall | now apply dict_update_NoDup | exact H].
Qed.

Lemma retrieve_keys (paths : list Path) (c : Cache Key) (data : type_mapping) :
  Forall Q paths ->
  Forall Q (set_order (paths_to_fetch Key_eq_dec ctx c paths)) ->
  outcome (retrieve paths c) = Ok data ->
  Forall (local_to Q) (dict_keys data) /\ NoDup (dict_keys data).
Proof.
  intros HQ HQo Ho.
  destruct (outcome (read_phase paths c)) as [st|e] eqn:Hr.
  2:{ rewrite (retrieve_read_raise _ Key_eq_dec key_truthy json_loads json_dumps
                 set_order ctx _ _ _ Hr) in Ho. discriminate. }
  assert (Hst : Forall (local_to Q) (dict_keys (fst st)) /\ NoDup (dict_keys (fst st))).
  { destruct (has_cache ctx).
    - apply (read_cached_keys c paths ([], nodup string_dec paths) st HQ);
        [constructor | constructor | exact Hr].
    - simpl in Hr. inversion Hr; subst. simpl. split; constructor. }
  destruct Hst as [Hl Hnd].
  rewrite (retrieve_read_ok _ Key_eq_dec key_truthy json_loads json_dumps set_order
             ctx _ _ _ Hr) in Ho.
  rewrite <- (read_phase_fetch _ Key_eq_dec json_loads ctx _ _ _ Hr) in HQo.
  destruct (snd st) as [|q fetch] eqn:Hf.
  - simpl in Ho. inversion Ho; subst. auto.
  - rewrite <- Hf in Ho. cbv zeta in Ho.
    destruct (external_components_command ctx _) as [raw|e]; [|discriminate].
    destruct (json_loads raw) as [j|]; [|discriminate].
    destruct (translate_fetched j (set_order (snd st)) (fst st)) as [d|e] eqn:Ht;
      [|discriminate].
    rewrite Hf in Ht.
    destruct (translate_fetched_keys j _ _ _ HQo Hl Hnd Ht) as [Hdl Hdn].
    destruct (has_cache ctx); cbn [outcome] in Ho.
    + destruct (outcome (write_back _ _ _ _ _ _ _ _)); inversion Ho; subst; auto.
    + inversion Ho; subst; auto.
Qed.

End RetrievedKeys.

(** X14: every key of what [_retrieve_local_component_types] returns is a
    local key whose name and namespace are words and whose dirpath is the
    text of one of the requested directories, and no key comes twice.  The
    proviso is that iterating over a set yields only its elements. *)
Theorem retrieved_keys_local (paths : list Path) (c : Cache Key)
    (data : type_mapping) :
  (forall l p, In p (set_order l) -> In p l) ->
  outcome (retrieve paths c) = Ok data ->
  NoDup (dict_keys data) /\
  Forall (local_to (fun p => In p paths)) (dict_keys data).
Proof.
  intros Hset Ho.
  destruct (retrieve_keys (fun p => In p paths) paths c data) as [Hl Hnd]; auto.
  - apply Forall_forall. auto.
  - apply Forall_forall. intros p Hp. apply Hset in Hp.
    unfold paths_to_fetch in Hp.
    destruct (has_cache ctx); [apply filter_In in Hp as [Hp _]|];
      now apply nodup_In in Hp.
Qed.

(** ** Local types beside the global listing *)

(** X15: the local component types change nothing of the global view of a
    constructed registry: [global_keys], [global_items] and [get_global]
    answer as they do on the registry of the global listing alone. *)
Theorem local_types_keep_global_view (dirs : option (list Path)) (c : Cache Key)
    (r : RemoteComponentRegistry) :
  outcome (construct dirs c) = Ok r ->
  exists gd, outcome (global c) = Ok gd /\
             global_keys r = global_keys (new_registry gd) /\
             global_items r = global_items (new_registry gd) /\
             forall k, get_global r k = get_global (new_registry gd) k.
Proof.
  rewrite from_dg_context_run. intros H.
  destruct (outcome (global c)) as [gd|e]; [|discriminate].
  exists gd. split; [reflexivity|].
  assert (Hsame : r = new_registry gd \/
            exists paths c' m, outcome (retrieve paths c') = Ok m /\
                               r = new_registry (dict_update ComponentKey_eq_dec gd m)).
  { destruct dirs as [[|d ds]|]; cbn [outcome] in H;
      try (left; now inversion H).
    destruct (outcome (retrieve (d :: ds) (cache_after (global c)))) as [m|e] eqn:Hm;
      [|discriminate].
    right. exists (d :: ds), (cache_after (global c)), m. split; [exact Hm|].
    now inversion H. }
  destruct Hsame as [->|(paths & c' & m & Hm & ->)]; [auto|].
  destruct (retrieve_keys (fun _ => True) paths c' m) as [Hl Hnd]; auto;
    try (apply Forall_forall; auto).
  assert (Hg : forall k, get_global (new_registry (dict_update ComponentKey_eq_dec gd m)) k
                         = get_global (new_registry gd) k).
  { intros k. unfold get_global. destruct (is_global k) eqn:Hk; [|reflexivity].
    cbn [negb]. unfold subscript, new_registry. cbn [_components].
    rewrite dict_get_update by assumption.
    assert (Hn : dict_get ComponentKey_eq_dec k m = None).
    { apply dict_get_None. intros Hin. rewrite Forall_forall in Hl.
      apply Hl, local_to_not_global in Hin. congruence. }
    now rewrite Hn. }
  assert (Hk : global_keys (new_registry (dict_update ComponentKey_eq_dec gd m))
               = global_keys (new_registry gd)).
  { unfold global_keys, new_registry. cbn [_components].
    rewrite !filter_sorted_by. f_equal. apply dict_keys_update_filter.
    eapply Forall_impl; [|exact Hl]. intros k. apply local_to_not_global. }
  split; [exact Hk|]. split; [|exact Hg].
  unfold global_items. rewrite Hk. now apply pair_with_global_ext.
Qed.

(** ** The order of a construction's effects *)

Lemma lock_calls_app (l1 l2 : list (Event Key)) :
  lock_calls (l1 ++ l2) = lock_calls l1 + lock_calls l2.
Proof. unfold lock_calls. now rewrite filter_app, length_app. Qed.

Lemma read_cached_no_lock (paths : list Path) (st : type_mapping * list Path)
    (c : Cache Key) :
  lock_calls (events (read paths st c)) = 0.
Proof.
  revert st. induction paths as [|p rest IH]; intros st; simpl; [reflexivity|].
  unfold bind at 1. simpl.
  destruct (dict_get Key_eq_dec (key_of p) c) as [[|ch raw]|]; simpl;
    try apply IH.
  unfold loads, lift, bind. simpl.
  destruct (json_loads (String ch raw)) as [j|]; simpl; [|reflexivity].
  destruct (_get_local_type_mapping_from_raw_data j p) as [m|e]; simpl; [|reflexivity].
  destruct (set_remove p (snd st)) as [f|e]; simpl; [|reflexivity].
  apply IH.
Qed.

Lemma write_back_no_lock (j : json) (order : list Path) (c : Cache Key) :
  lock_calls (events (write_back Key_eq_dec key_truthy json_loads json_dumps
                        ctx j order c)) = 0.
Proof.
  revert c. induction order as [|p rest IH]; intros c; simpl; [reflexivity|].
  unfold bind at 1. unfold lift at 1. simpl.
  destruct (json_get_or_empty j (str_of_path p)) as [share|e]; simpl; [|reflexivity].
  unfold bind at 1.
  destruct (key_truthy (key_of p) && is_valid_json json_loads (json_dumps share));
    simpl; apply IH.
Qed.

Lemma read_phase_no_lock (paths : list Path) (c : Cache Key) :
  lock_calls (events (read_phase paths c)) = 0.
Proof. destruct (has_cache ctx); [apply read_cached_no_lock | reflexivity]. Qed.

Lemma retrieve_no_lock (paths : list Path) (c : Cache Key) :
  lock_calls (events (retrieve paths c)) = 0.
Proof.
  pose proof (read_phase_no_lock paths c) as Hq.
  destruct (outcome (read_phase paths c)) as [st|e] eqn:Hr.
  - rewrite (retrieve_read_ok _ Key_eq_dec key_truthy json_loads json_dumps set_order
               ctx _ _ _ Hr).
    destruct (snd st) as [|p fetch]; [exact Hq|]. cbv zeta.
    destruct (external_components_command ctx _) as [raw|e];
      [destruct (json_loads raw) as [j|];
       [destruct (translate_fetched j _ (fst st)) as [data|e];
        [destruct (has_cache ctx)|]|]|];
      cbn [events]; rewrite ?lock_calls_app, Hq, ?write_back_no_lock;
      reflexivity.
  - rewrite (retrieve_read_raise _ Key_eq_dec key_truthy json_loads json_dumps
               set_order ctx _ _ _ Hr). exact Hq.
Qed.

(** What obtaining the global listing does, whichever way it goes. *)
Lemma global_summary (c : Cache Key) :
  lock_calls (events (global c)) = 0 /\
  (external_calls (events (global c)) = [] \/
   external_calls (events (global c)) = [global_args]) /\
  (forall args e, In args (external_calls (events (global c))) ->
                  external_components_command ctx args = Raise e ->
                  outcome (global c) = Raise e /\
                  cache_writes (events (global c)) = [] /\
                  cache_after (global c) = c).
Proof.
  destruct (has_cache ctx) eqn:Hc.
  - destruct (str_truthy (dict_get Key_eq_dec registry_key c)) eqn:Hm.
    + destruct (dict_get Key_eq_dec registry_key c) as [[|ch s]|] eqn:Hg;
        try discriminate.
      rewrite (global_hit _ Key_eq_dec key_truthy json_loads ctx c ch s Hc Hg).
      cbn [events]. split; [reflexivity|]. split; [now left|].
      intros args e [].
    + rewrite (global_miss c Hc Hm).
      destruct (external_components_command ctx global_args) as [raw|e0] eqn:He;
        [destruct (key_truthy registry_key && is_valid_json json_loads raw)|];
        cbn [events outcome cache_after]; (split; [reflexivity|]);
        (split; [now right|]); intros args e [<-|[]] Ha; try congruence.
      split; [congruence | auto].
  - rewrite (global_no_cache c Hc).
    destruct (external_components_command ctx global_args) as [raw|e0] eqn:He;
      cbn [events outcome cache_after]; (split; [reflexivity|]);
      (split; [now right|]); intros args e [<-|[]] Ha; try congruence.
    split; [congruence | auto].
Qed.

(** What a failing invocation does to a retrieval. *)
Lemma retrieve_failure (paths : list Path) (c : Cache Key) (args : list string)
    (e : Exn) :
  In args (external_calls (events (retrieve paths c))) ->
  external_components_command ctx args = Raise e ->
  outcome (retrieve paths c) = Raise e /\
  cache_writes (events (retrieve paths c)) = [] /\
  cache_after (retrieve paths c) = c.
Proof.
  destruct (read_phase_quiet _ Key_eq_dec json_loads ctx paths c) as (_ & Hq & Hw).
  destruct (outcome (read_phase paths c)) as [st|e0] eqn:Hr.
  - rewrite (retrieve_read_ok _ Key_eq_dec key_truthy json_loads json_dumps set_order
               ctx _ _ _ Hr).
    destruct (snd st) as [|p fetch]; [cbn [events]; rewrite Hq; intros []|].
    cbv zeta.
    destruct (external_components_command ctx (local_args (p :: fetch)))
      as [raw|e1] eqn:He.
    + destruct (json_loads raw) as [j|];
        [destruct (translate_fetched j _ (fst st)) as [data|e2];
         [destruct (has_cache ctx)|]|];
        cbn [events]; rewrite ?external_calls_app, Hq, ?write_back_quiet;
        intros [<-|[]] Ha; congruence.
    + cbn [events outcome cache_after].
      rewrite external_calls_app, cache_writes_app, Hq, Hw.
      intros [<-|[]] Ha. split; [congruence | auto].
  - rewrite (retrieve_read_raise _ Key_eq_dec key_truthy json_loads json_dumps
               set_order ctx _ _ _ Hr).
    cbn [events]. rewrite Hq. intros [].
Qed.

(** X17: the effects of a construction come in a fixed order.  The lock is
    ensured first, once, and only in a managed environment.  The external
    process is then invoked at most twice: at most once for the global
    listing and after that at most once for the local types, with the
    directories left to fetch by the cache as the global step left it. *)
Theorem construction_effect_order (dirs : option (list Path)) (c : Cache Key) :
  exists rest g l,
    events (construct dirs c) = lock_events ++ rest /\
    lock_calls rest = 0 /\
    external_calls (events (construct dirs c)) = g ++ l /\
    (g = [] \/ g = [global_args]) /\
    (l = [] \/
     l = [local_args (paths_to_fetch Key_eq_dec ctx (cache_after (global c))
                        (dirs_of dirs))]).
Proof.
  destruct (global_summary c) as (Hlock & Hcalls & _).
  assert (Hl0 : external_calls lock_events = [])
    by (destruct (use_dg_managed_environment ctx); reflexivity).
  rewrite from_dg_context_run.
  destruct (outcome (global c)) as [gd|e].
  - destruct dirs as [[|d ds]|].
    + exists (events (global c)), (external_calls (events (global c))), [].
      cbn [events]. rewrite external_calls_app, Hl0, app_nil_r. auto 6.
    + exists (events (global c) ++ events (retrieve (d :: ds) (cache_after (global c)))),
        (external_calls (events (global c))),
        (external_calls (events (retrieve (d :: ds) (cache_after (global c))))).
      cbn [events dirs_of].
      rewrite lock_calls_app, Hlock, retrieve_no_lock, !external_calls_app, Hl0.
      pose proof (retrieve_external_calls _ Key_eq_dec key_truthy json_loads json_dumps
                    set_order ctx (d :: ds) (cache_after (global c))) as Hr.
      auto 6.
    + exists (events (global c)), (external_calls (events (global c))), [].
      cbn [events]. rewrite external_calls_app, Hl0, app_nil_r. auto 6.
  - exists (events (global c)), (external_calls (events (global c))), [].
    cbn [events]. rewrite external_calls_app, Hl0, app_nil_r. auto 6.
Qed.

(** X18: a failure of the external process is not handled.  When an
    invocation made by a construction fails, the construction raises that
    error; the directories' entries are not written: the cache is left as
    obtaining the global listing left it, and untouched when it was the
    global listing that failed. *)
Theorem external_failure_propagates (dirs : option (list Path)) (c : Cache Key)
    (args : list string) (e : Exn) :
  In args (external_calls (events (construct dirs c))) ->
  external_components_command ctx args = Raise e ->
  outcome (construct dirs c) = Raise e /\
  cache_after (construct dirs c) = cache_after (global c) /\
  cache_writes (events (construct dirs c)) = cache_writes (events (global c)) /\
  (In args (external_calls (events (global c))) ->
   cache_after (construct dirs c) = c /\ cache_writes (events (construct dirs c)) = []).
Proof.
  destruct (global_summary c) as (_ & _ & Hfail).
  assert (Hl0 : external_calls lock_events = [] /\ cache_writes lock_events = [])
    by (destruct (use_dg_managed_environment ctx); split; reflexivity).
  destruct Hl0 as [Hl0 Hl1].
  rewrite from_dg_context_run.
  assert (Hglobal : forall run : Run Key RemoteComponentRegistry,
            events run = lock_events ++ events (global c) ->
            cache_after run = cache_after (global c) ->
            outcome run = outcome (match outcome (global c) with
                                   | Ok gd => {| events := []; cache_after := c;
                                                 outcome := Ok (new_registry gd) |}
                                   | Raise e0 => {| events := []; cache_after := c;
                                                    outcome := Raise e0 |}
                                   end) ->
            In args (external_calls (events run)) ->
            external_components_command ctx args = Raise e ->
            outcome run = Raise e /\
            cache_after run = cache_after (global c) /\
            cache_writes (events run) = cache_writes (events (global c)) /\
            (In args (external_calls (events (global c))) ->
             cache_after run = c /\ cache_writes (events run) = [])).
  { intros run Hev Hca Hout Hin Ha.
    rewrite Hev, external_calls_app, Hl0 in Hin. cbn [app] in Hin.
    destruct (Hfail args e Hin Ha) as (Ho & Hw & Hc).
    rewrite Hev, cache_writes_app, Hl1, Hca, Hout, Ho, Hw, Hc. auto. }
  destruct (outcome (global c)) as [gd|e0] eqn:Hg.
  - destruct dirs as [[|d ds]|];
      try (apply Hglobal; rewrite ?Hg; reflexivity).
    cbn [events outcome cache_after].
    rewrite !external_calls_app, !cache_writes_app, Hl0, Hl1. cbn [app].
    intros Hin Ha. apply in_app_or in Hin as [Hin|Hin].
    + destruct (Hfail args e Hin Ha) as (Ho & _). congruence.
    + destruct (retrieve_failure _ _ _ _ Hin Ha) as (Ho & Hw & Hc).
      rewrite Ho, Hw, Hc, app_nil_r.
      split; [reflexivity|]. split; [reflexivity|]. split; [reflexivity|].
      intros Hin'. destruct (Hfail args e Hin' Ha) as (Ho' & _). congruence.
  - apply Hglobal; rewrite ?Hg; reflexivity.
Qed.

(** ** The schema of all components *)

Local Abbreviation schema :=
  (all_components_schema_from_dg_context Key_eq_dec json_loads ctx).
Local Abbreviation schema_key := (get_cache_key ctx "all_components_schema").
Local Abbreviation schema_args := ["list"; "all-components-schema"].

(** X16: [all_components_schema_from_dg_context] only reads the cache: it
    never writes it, so a schema obtained from the external process is not
    kept and a second call repeats the first.  The process is invoked
    exactly when there is no cache or the cache has no non-empty entry for
    the schema; a cached text that is not JSON raises [JSONDecodeError]
    without the process being asked. *)
Theorem schema_never_cached (c : Cache Key) :
  cache_after (schema c) = c /\
  cache_writes (events (schema c)) = [] /\
  schema (cache_after (schema c)) = schema c /\
  external_calls (events (schema c))
  = (if has_cache ctx && str_truthy (dict_get Key_eq_dec schema_key c)
     then [] else [schema_args]) /\
  (forall raw, has_cache ctx = true ->
               dict_get Key_eq_dec schema_key c = Some raw ->
               str_truthy (Some raw) = true ->
               outcome (schema c) = match json_loads raw with
                                    | Some j => Ok j
                                    | None => Raise JSONDecodeError
                                    end).
Proof.
  assert (H : cache_after (schema c) = c /\
              cache_writes (events (schema c)) = [] /\
              external_calls (events (schema c))
              = (if has_cache ctx && str_truthy (dict_get Key_eq_dec schema_key c)
                 then [] else [schema_args]) /\
              (forall raw, has_cache ctx = true ->
                 dict_get Key_eq_dec schema_key c = Some raw ->
                 str_truthy (Some raw) = true ->
                 outcome (schema c) = match json_loads raw with
                                      | Some j => Ok j
                                      | None => Raise JSONDecodeError
                                      end)).
  { unfold all_components_schema_from_dg_context, bind, cache_get, external, ret,
      loads, lift.
    destruct (has_cache ctx); cbn [outcome events cache_after andb].
    - destruct (dict_get Key_eq_dec schema_key c) as [[|ch s]|];
        cbn [outcome events cache_after str_truthy];
        try (destruct (external_components_command ctx schema_args) as [raw|e];
             cbn [outcome events cache_after]);
        repeat (split; [reflexivity|]); intros raw' _ Hraw Ht;
        try discriminate; inversion Hraw; subst; try discriminate; reflexivity.
    - destruct (external_components_command ctx schema_args) as [raw|e];
        cbn [outcome events cache_after];
        repeat (split; [reflexivity|]); intros raw' Hf; discriminate. }
  destruct H as (H1 & H2 & H3 & H4).
  split; [exact H1|]. split; [exact H2|]. split; [now rewrite H1|].
  split; [exact H3 | exact H4].
Qed.

End ConstructionMore.

(** ** Runs that show the further properties *)

Lemma global_miss_caches_valid_json_witness :
  let run := example_global (answering_context "[]") [] in
  external_calls (events run) = [["list"; "component-types"]] /\
  cache_writes (events run) = [(example_cache_key "component_registry_data", "[]")] /\
  outcome run = Raise AttributeError.
Proof.
  destruct (global_miss_caches_valid_json string string_dec key_nonempty
              json_loads_lite (answering_context "[]") [] "[]")
    as (H1 & H2 & H3 & _).
  - reflexivity.
  - reflexivity.
  - reflexivity.
  - split; [exact H1 | split; [exact H2 | exact H3]].
Defined.

Lemma global_listing_served_from_cache_witness :
  let ctx := answering_context (json_dumps_lite listing_a) in
  let again := example_global ctx (cache_after (example_global ctx [])) in
  outcome (example_global ctx []) = Ok alpha_global /\
  external_calls (events again) = [] /\
  cache_writes (events again) = [] /\
  outcome again = Ok alpha_global.
Proof.
  split; [reflexivity|].
  destruct (global_listing_served_from_cache string string_dec key_nonempty
              json_loads_lite (answering_context (json_dumps_lite listing_a)) []
              alpha_global)
    as (H1 & H2 & _ & H4).
  - reflexivity.
  - reflexivity.
  - reflexivity.
  - reflexivity.
  - split; [exact H1 | split; [exact H2 | exact H4]].
Defined.

Lemma no_cache_run_witness :
  let run := example_construct (uncached_context (json_dumps_lite listing_a))
               (Some ["proj/b"]) partial_cache in
  cache_after run = partial_cache /\
  events run = [ExternalCommand string ["list"; "component-types"];
                ExternalCommand string ["list"; "local-component-types"; "proj/b"]].
Proof.
  destruct (no_cache_run string string_dec key_nonempty json_loads_lite
              json_dumps_lite same_order
              (uncached_context (json_dumps_lite listing_a))
              (Some ["proj/b"]) partial_cache)
    as (H1 & H2).
  - reflexivity.
  - split; [exact H1 | exact H2].
Defined.

Lemma all_cached_retrieval_witness :
  let run := example_retrieve partial_cache_context ["proj/a"] partial_cache in
  outcome run = Ok (alpha_local "proj/a") /\
  external_calls (events run) = [] /\
  cache_writes (events run) = [] /\
  cache_after run = partial_cache.
Proof.
  apply (all_cached_retrieval string string_dec key_nonempty json_loads_lite
           json_dumps_lite same_order partial_cache_context ["proj/a"]
           [alpha_local "proj/a"] partial_cache).
  - reflexivity.
  - constructor; [simpl; tauto | constructor].
  - constructor; [reflexivity | constructor].
Defined.

Lemma retrieved_keys_local_witness :
  let run := example_retrieve (answering_context (json_dumps_lite listing_a))
               ["proj/a"; "proj/b"] partial_cache in
  let data := alpha_local "proj/a" ++ alpha_local "proj/b" in
  outcome run = Ok data /\
  NoDup (dict_keys data) /\
  Forall (local_to (fun p => In p ["proj/a"; "proj/b"])) (dict_keys data).
Proof.
  split; [reflexivity|].
  apply (retrieved_keys_local string string_dec key_nonempty json_loads_lite
           json_dumps_lite same_order (answering_context (json_dumps_lite listing_a))
           ["proj/a"; "proj/b"] partial_cache).
  - intros l p Hp. exact Hp.
  - reflexivity.
Defined.

Lemma local_types_keep_global_view_witness :
  let ctx := answering_context (json_dumps_lite listing_a) in
  let r := new_registry (alpha_global ++ alpha_local "proj/b") in
  outcome (example_construct ctx (Some ["proj/b"]) []) = Ok r /\
  exists gd, outcome (example_global ctx []) = Ok gd /\
             global_keys r = global_keys (new_registry gd) /\
             global_items r = global_items (new_registry gd) /\
             forall k, get_global r k = get_global (new_registry gd) k.
Proof.
  split; [reflexivity|].
  apply (local_types_keep_global_view string string_dec key_nonempty json_loads_lite
           json_dumps_lite same_order (answering_context (json_dumps_lite listing_a))
           (Some ["proj/b"]) []).
  reflexivity.
Defined.

Lemma external_failure_propagates_witness :
  let run := example_construct partial_cache_context (Some ["proj/z"]) partial_cache in
  In ["list"; "local-component-types"; "proj/z"] (external_calls (events run)) /\
  outcome run = Raise (ExternalError "unexpected arguments") /\
  cache_after run = partial_cache /\
  cache_writes (events run) = [].
Proof.
  destruct (external_failure_propagates string string_dec key_nonempty json_loads_lite
              json_dumps_lite same_order partial_cache_context (Some ["proj/z"])
              partial_cache ["list"; "local-component-types"; "proj/z"]
              (ExternalError "unexpected arguments"))
    as (H1 & H2 & H3 & _).
  - left. reflexivity.
  - reflexivity.
  - split; [left; reflexivity|]. split; [exact H1|]. split; [exact H2 | exact H3].
Defined.
